(** * Cycle algorithms of networkx ([networkx/algorithms/cycles.py])

    A shallow embedding of [cycle_basis], [simple_cycles],
    [recursive_simple_cycles], [chords] and [find_cycle], together with the
    parts of the graph container and of the traversal helpers they call,
    and the properties stated about them. *)

From Stdlib Require Import List Arith Bool Lia PeanoNat NArith ZArith.
Import ListNotations.

Set Implicit Arguments.

(** ** Nodes, sets and small list utilities *)

Definition node := nat.
Definition ekey := nat.
Definition attr := nat.

(** Python sets of nodes are kept as lists; only membership is observed,
    except by [pop], which is documented where it is used. *)
Definition mem (x : node) (s : list node) : bool := existsb (Nat.eqb x) s.

Definition set_add (x : node) (s : list node) : list node :=
  if mem x s then s else s ++ [x].

Fixpoint set_of (l : list node) : list node :=
  match l with
  | [] => []
  | x :: r => if mem x r then set_of r else x :: set_of r
  end.

(** Keeps the first occurrence of every element, as the keys of a dict that
    is filled in that order. *)
Fixpoint dedup_acc (seenl : list node) (l : list node) : list node :=
  match l with
  | [] => []
  | x :: r => if mem x seenl then dedup_acc seenl r
              else x :: dedup_acc (x :: seenl) r
  end.

Definition dedup (l : list node) : list node := dedup_acc [] l.

Definition remove_node_from (x : node) (s : list node) : list node :=
  filter (fun y => negb (Nat.eqb x y)) s.

(** ** The graph container

    Modelled from the spec: the graph container (node and edge storage,
    adjacency queries, the directed/undirected/multi distinction) is an
    external collaborator of [cycles.py].  A graph is its two kind flags,
    its nodes in insertion order and its edges in insertion order; every
    iteration order below is the order of insertion. *)

Record Edge := mkEdge { e_u : node; e_v : node; e_key : ekey; e_data : attr }.

Record Graph := mkGraph {
  is_directed : bool;
  is_multigraph : bool;
  node_list : list node;
  edge_list : list Edge }.

Definition edge_eqb (a b : Edge) : bool :=
  Nat.eqb (e_u a) (e_u b) && Nat.eqb (e_v a) (e_v b) &&
  Nat.eqb (e_key a) (e_key b) && Nat.eqb (e_data a) (e_data b).

(** [u] and [v] are joined by [e], read as the graph kind reads it. *)
Definition joins (d : bool) (u v : node) (e : Edge) : bool :=
  (Nat.eqb (e_u e) u && Nat.eqb (e_v e) v) ||
  (negb d && Nat.eqb (e_u e) v && Nat.eqb (e_v e) u).

Definition has_node (G : Graph) (n : node) : bool := mem n (node_list G).

Definition has_edge (G : Graph) (u v : node) : bool :=
  existsb (joins (is_directed G) u v) (edge_list G).

(** The other end of [e] seen from [z], when [e] leaves [z]. *)
Definition out_end (d : bool) (z : node) (e : Edge) : option node :=
  if Nat.eqb (e_u e) z then Some (e_v e)
  else if negb d && Nat.eqb (e_v e) z then Some (e_u e)
  else None.

Definition in_end (z : node) (e : Edge) : option node :=
  if Nat.eqb (e_v e) z then Some (e_u e) else None.

Fixpoint filter_map {A B : Type} (f : A -> option B) (l : list A) : list B :=
  match l with
  | [] => []
  | x :: r => match f x with
              | Some y => y :: filter_map f r
              | None => filter_map f r
              end
  end.

(** [G[z]]: the neighbours (successors, when directed) of [z]. *)
Definition nbrs (G : Graph) (z : node) : list node :=
  dedup (filter_map (out_end (is_directed G) z) (edge_list G)).

(** [G.pred[z]] of a directed graph. *)
Definition preds (G : Graph) (z : node) : list node :=
  dedup (filter_map (in_end z) (edge_list G)).

(** The parallel edges from [u] to [v], in key order. *)
Definition edges_between (G : Graph) (u v : node) : list Edge :=
  filter (joins (is_directed G) u v) (edge_list G).

Definition add_node (G : Graph) (n : node) : Graph :=
  mkGraph (is_directed G) (is_multigraph G) (set_add n (node_list G))
          (edge_list G).

Definition add_nodes_from (G : Graph) (l : list node) : Graph :=
  fold_left add_node l G.

(** The key a multigraph gives a new edge: the number of parallel edges,
    raised until it is unused. *)
Fixpoint fresh_key (fuel : nat) (used : list ekey) (k : ekey) : ekey :=
  match fuel with
  | O => k
  | S f => if mem k used then fresh_key f used (S k) else k
  end.

Definition new_key (G : Graph) (u v : node) : ekey :=
  let ks := map e_key (edges_between G u v) in
  fresh_key (S (length ks)) ks (length ks).

Fixpoint update_data (d : bool) (u v : node) (a : attr) (l : list Edge)
  : list Edge :=
  match l with
  | [] => []
  | e :: r => if joins d u v e
              then mkEdge (e_u e) (e_v e) (e_key e) a :: r
              else e :: update_data d u v a r
  end.

Fixpoint update_keyed (d : bool) (u v : node) (k : ekey) (a : attr)
  (l : list Edge) : list Edge :=
  match l with
  | [] => []
  | e :: r => if joins d u v e && Nat.eqb (e_key e) k
              then mkEdge (e_u e) (e_v e) k a :: r
              else e :: update_keyed d u v k a r
  end.

(** [G.add_edge(u, v, key, data)]; a simple graph ignores the key and keeps
    a single edge per pair of end points. *)
Definition add_edge (G : Graph) (u v : node) (k : option ekey) (a : attr)
  : Graph :=
  let G1 := add_node (add_node G u) v in
  let d := is_directed G in
  if is_multigraph G then
    let k' := match k with Some k0 => k0 | None => new_key G u v end in
    if existsb (fun e => joins d u v e && Nat.eqb (e_key e) k') (edge_list G)
    then mkGraph d true (node_list G1) (update_keyed d u v k' a (edge_list G))
    else mkGraph d true (node_list G1) (edge_list G ++ [mkEdge u v k' a])
  else
    if has_edge G u v
    then mkGraph d false (node_list G1) (update_data d u v a (edge_list G))
    else mkGraph d false (node_list G1) (edge_list G ++ [mkEdge u v 0 a]).

Definition empty_graph (d m : bool) : Graph := mkGraph d m [] [].

(** [nx.Graph(pairs)], [nx.DiGraph(pairs)], ...: a graph of the given kind
    from a list of [(u, v)] pairs. *)
Definition of_pairs (d m : bool) (l : list (node * node)) : Graph :=
  fold_left (fun G p => add_edge G (fst p) (snd p) None 0) l
            (empty_graph d m).

(** The same from [(u, v, key, data)] tuples. *)
Definition of_edges (d m : bool) (l : list Edge) : Graph :=
  fold_left (fun G e => add_edge G (e_u e) (e_v e) (Some (e_key e)) (e_data e))
            l (empty_graph d m).

(** [G.edges_iter(keys=True, data=True)] over the whole graph: for every
    node, for every neighbour, for every key; an undirected graph reports
    an edge from the end point met first. *)
Fixpoint edges_from (G : Graph) (seenl : list node) (ns : list node)
  : list Edge :=
  match ns with
  | [] => []
  | n :: r =>
      flat_map (fun nb =>
                  if mem nb seenl then []
                  else map (fun e => mkEdge n nb (e_key e) (e_data e))
                           (edges_between G n nb))
               (nbrs G n)
      ++ edges_from G (if is_directed G then seenl else n :: seenl) r
  end.

Definition edges_iter (G : Graph) : list Edge :=
  edges_from G [] (node_list G).

(** [G.edges()] without keys and data. *)
Definition edge_pairs (G : Graph) : list (node * node) :=
  map (fun e => (e_u e, e_v e)) (edges_iter G).

(** [G.remove_node(n)]. *)
Definition remove_node (G : Graph) (n : node) : Graph :=
  mkGraph (is_directed G) (is_multigraph G)
          (remove_node_from n (node_list G))
          (filter (fun e => negb (Nat.eqb (e_u e) n) && negb (Nat.eqb (e_v e) n))
                  (edge_list G)).

(** [G.subgraph(nbunch)]: the graph induced on the nodes of [nbunch]. *)
Definition subgraph (G : Graph) (nb : list node) : Graph :=
  mkGraph (is_directed G) (is_multigraph G)
          (filter (fun n => mem n nb) (node_list G))
          (filter (fun e => mem (e_u e) nb && mem (e_v e) nb) (edge_list G)).

(** [G.copy()]. *)
Definition copy (G : Graph) : Graph :=
  mkGraph (is_directed G) (is_multigraph G) (node_list G) (edge_list G).

(** Every adjacency entry [(u, v, key, data)] in the order the adjacency
    dict of [G] lists it; an undirected edge shows from both of its ends. *)
Definition adj_entries (G : Graph) : list Edge :=
  flat_map (fun u =>
              flat_map (fun v => map (fun e => mkEdge u v (e_key e) (e_data e))
                                     (edges_between G u v))
                       (nbrs G u))
           (node_list G).

Definition pair_mem (p : node * node) (s : list (node * node)) : bool :=
  existsb (fun q => Nat.eqb (fst p) (fst q) && Nat.eqb (snd p) (snd q)) s.

Fixpoint convert_from (skip : bool) (keep_keys : bool)
  (seenp : list (node * node)) (l : list Edge) (T : Graph) : Graph :=
  match l with
  | [] => T
  | e :: r =>
      if skip && pair_mem (e_u e, e_v e) seenp
      then convert_from skip keep_keys seenp r T
      else convert_from skip keep_keys
             (if skip then (e_v e, e_u e) :: seenp else seenp) r
             (add_edge T (e_u e) (e_v e)
                       (if keep_keys then Some (e_key e) else None) (e_data e))
  end.

(** [nx.Graph(G)], [nx.MultiGraph(G)], [nx.DiGraph(G)]: a graph of kind
    [(d, m)] with the nodes and the adjacency of [G].  An undirected target
    built from or into a multigraph takes each pair of end points from the
    side it meets first. *)
Definition convert (d m : bool) (G : Graph) : Graph :=
  let skip := negb d && (is_multigraph G || m) in
  convert_from skip (is_multigraph G && m) []
               (adj_entries G)
               (add_nodes_from (empty_graph d m) (node_list G)).

(** ** The edge traversal helpers ([networkx.algorithms.traversal.edgedfs])

    Modelled from the spec: the depth-first edge traversal parameterised by
    the orientation, and the tail and head accessors that respect it. *)

Inductive direction := FORWARD | REVERSE.
Inductive orientation := Original | Reverse | Ignore.

(** A traversal step: [(u, v)], [(u, v, key)], [(u, v, direction)] or
    [(u, v, key, direction)]. *)
Record TEdge := mkT {
  t_u : node; t_v : node; t_key : option ekey; t_dir : option direction }.

Definition orientation_eqb (a b : orientation) : bool :=
  match a, b with
  | Original, Original | Reverse, Reverse | Ignore, Ignore => true
  | _, _ => false
  end.

Definition ignore_orientation (G : Graph) (o : orientation) : bool :=
  is_directed G && orientation_eqb o Ignore.

Definition reverse_orientation (G : Graph) (o : orientation) : bool :=
  is_directed G && orientation_eqb o Reverse.

Definition keyed (G : Graph) (k : ekey) : option ekey :=
  if is_multigraph G then Some k else None.

(** [G.edges_iter(u)] ([G.out_edges(u)] when directed), with keys for a
    multigraph. *)
Definition edges_at (G : Graph) (u : node) (dir : option direction)
  : list TEdge :=
  flat_map (fun v => map (fun e => mkT u v (keyed G (e_key e)) dir)
                         (edges_between G u v))
           (nbrs G u).

(** [G.in_edges(u)] of a directed graph. *)
Definition in_edges_at (G : Graph) (u : node) (dir : option direction)
  : list TEdge :=
  flat_map (fun p => map (fun e => mkT p u (keyed G (e_key e)) dir)
                         (edges_between G p u))
           (preds G u).

Definition out_edges (G : Graph) (o : orientation) (u : node) : list TEdge :=
  if ignore_orientation G o
  then edges_at G u (Some FORWARD) ++ in_edges_at G u (Some REVERSE)
  else if reverse_orientation G o
  then in_edges_at G u (Some REVERSE)
  else edges_at G u None.

(** The identity of an edge for the visited set: the direction tag is
    dropped, and an undirected edge is the set of its end points. *)
Definition edge_id (G : Graph) (e : TEdge) : node * node * option ekey :=
  if is_directed G then (t_u e, t_v e, t_key e)
  else (Nat.min (t_u e) (t_v e), Nat.max (t_u e) (t_v e), t_key e).

Definition okey_eqb (a b : option ekey) : bool :=
  match a, b with
  | Some x, Some y => Nat.eqb x y
  | None, None => true
  | _, _ => false
  end.

Definition id_eqb (a b : node * node * option ekey) : bool :=
  Nat.eqb (fst (fst a)) (fst (fst b)) && Nat.eqb (snd (fst a)) (snd (fst b))
  && okey_eqb (snd a) (snd b).

Definition id_mem (a : node * node * option ekey)
  (s : list (node * node * option ekey)) : bool := existsb (id_eqb a) s.

(** [traversed_tailhead]: the tail and head of an edge as it was walked. *)
Definition tailhead (G : Graph) (o : orientation) (e : TEdge) : node * node :=
  if (ignore_orientation G o || reverse_orientation G o)
     && match t_dir e with Some REVERSE => true | _ => false end
  then (t_v e, t_u e) else (t_u e, t_v e).

Definition tail_of G o e := fst (tailhead G o e).
Definition head_of G o e := snd (tailhead G o e).

(** The state of the generator [edge_dfs(G, start, orientation)] between
    two of its yields: the stack (top first), the visited nodes and edges,
    and what is left of the edge iterator of every visited node. *)
Record dfs_state := mkDfs {
  d_stack : list node;
  d_vnodes : list node;
  d_vedges : list (node * node * option ekey);
  d_iters : list (node * list TEdge) }.

Fixpoint iter_get (n : node) (its : list (node * list TEdge))
  : option (list TEdge) :=
  match its with
  | [] => None
  | (m, l) :: r => if Nat.eqb n m then Some l else iter_get n r
  end.

Fixpoint iter_set (n : node) (l : list TEdge) (its : list (node * list TEdge))
  : list (node * list TEdge) :=
  match its with
  | [] => [(n, l)]
  | (m, l0) :: r => if Nat.eqb n m then (m, l) :: r
                    else (m, l0) :: iter_set n l r
  end.

(** Reads an iterator up to its first edge that was not visited yet. *)
Fixpoint advance (G : Graph) (vedges : list (node * node * option ekey))
  (it : list TEdge) : option (TEdge * list TEdge) :=
  match it with
  | [] => None
  | e :: r => if id_mem (edge_id G e) vedges then advance G vedges r
              else Some (e, r)
  end.

Definition dfs_start (start : node) : dfs_state := mkDfs [start] [] [] [].

(** One [next()] of the generator: [None] when it is exhausted. *)
Fixpoint dfs_next (G : Graph) (o : orientation) (stack : list node)
  (vnodes : list node) (vedges : list (node * node * option ekey))
  (its : list (node * list TEdge)) : option (TEdge * dfs_state) :=
  match stack with
  | [] => None
  | cur :: rest =>
      let it := if mem cur vnodes
                then match iter_get cur its with Some l => l | None => [] end
                else out_edges G o cur in
      let vnodes' := set_add cur vnodes in
      match advance G vedges it with
      | None => dfs_next G o rest vnodes' vedges (iter_set cur [] its)
      | Some (e, it') =>
          Some (e, mkDfs (head_of G o e :: cur :: rest) vnodes'
                         (edge_id G e :: vedges) (iter_set cur it' its))
      end
  end.

Definition edge_dfs_next (G : Graph) (o : orientation) (st : dfs_state) :=
  dfs_next G o (d_stack st) (d_vnodes st) (d_vedges st) (d_iters st).

(** ** [find_cycle] *)

(** [G.nbunch_iter(source)]: every node when no source is given, else the
    given nodes that are in the graph. *)
Definition nbunch_iter (G : Graph) (source : option (list node)) : list node :=
  match source with
  | None => node_list G
  | Some l => filter (has_node G) l
  end.

(** The [while True] loop that pops the path back to [tail].  The path is
    kept with its last edge first.  [None] is the [KeyError] of
    [active_nodes.remove]. *)
Fixpoint reconcile (G : Graph) (o : orientation) (tail : node)
  (edges : list TEdge) (active : list node)
  : option (list TEdge * list node) :=
  match edges with
  | [] => Some ([], [tail])
  | popped :: rest =>
      if mem (head_of G o popped) active then
        let active' := remove_node_from (head_of G o popped) active in
        match rest with
        | [] => Some ([], [tail])
        | last :: _ =>
            if Nat.eqb tail (head_of G o last) then Some (rest, active')
            else reconcile G o tail rest active'
        end
      else None
  end.

(** How the loop over [edge_dfs(G, start_node, orientation)] ends. *)
Inductive search_end :=
| Found (edges : list TEdge) (final_node : node) (seen : list node)
| Explored (seen : list node)
| Exhausted (seen : list node)
| RemoveFailed
| OutOfFuel.

(** The body of [for edge in edge_dfs(...)], iterated. [read] collects the
    edges taken from the generator, last first; the algorithm does not
    look at it. *)
Fixpoint search (fuel : nat) (G : Graph) (o : orientation)
  (explored : list node) (st : dfs_state) (edges : list TEdge)
  (seen active : list node) (previous_node : option node)
  (read : list TEdge) : search_end * list TEdge :=
  match fuel with
  | O => (OutOfFuel, read)
  | S fuel' =>
      match edge_dfs_next G o st with
      | None => (Exhausted seen, read)
      | Some (edge, st') =>
          let tail := tail_of G o edge in
          let head := head_of G o edge in
          let backtrack :=
            match previous_node with
            | Some p => negb (Nat.eqb tail p)
            | None => false
            end in
          match (if backtrack then reconcile G o tail edges active
                 else Some (edges, active)) with
          | None => (RemoveFailed, edge :: read)
          | Some (edges1, active1) =>
              let edges2 := edge :: edges1 in
              if mem head active1 then
                (Found edges2 head seen, edge :: read)
              else if mem head explored then
                (Explored seen, edge :: read)
              else
                search fuel' G o explored st' edges2 (set_add head seen)
                       (set_add head active1) (Some head) (edge :: read)
          end
      end
  end.

(** Enough fuel for one search: an edge is yielded once. *)
Definition search_fuel (G : Graph) : nat := S (length (edge_list G)).

(** What one search did, kept for the statements below: the source, the
    explored set it started from, the edges it read from the generator,
    the nodes it saw, and whether it closed a cycle. *)
Record search_log := mkLog {
  s_start : node;
  s_explored : list node;
  s_read : list TEdge;
  s_seen : list node;
  s_found : bool }.

(** The local variables of [find_cycle] when its [for start_node] loop is
    left, [l_broke] telling whether it was left by [break]; [l_error] is
    set when the model ran out of fuel or a [remove] failed. *)
Record fc_locals := mkLocals {
  l_explored : list node;
  l_cycle : list TEdge;
  l_final_node : option node;
  l_broke : bool;
  l_error : bool;
  l_log : list search_log }.

(** The [for start_node in G.nbunch_iter(source)] loop. *)
Fixpoint sources_loop (G : Graph) (o : orientation) (starts : list node)
  (explored : list node) (log : list search_log) : fc_locals :=
  match starts with
  | [] => mkLocals explored [] None false false log
  | start_node :: rest =>
      if mem start_node explored then sources_loop G o rest explored log
      else
        let '(r, read) := search (search_fuel G) G o explored
                                 (dfs_start start_node) [] [start_node]
                                 [start_node] None [] in
        let entry := mkLog start_node explored (rev read) in
        match r with
        | Found edges final_node seen =>
            mkLocals explored (rev edges) (Some final_node) true false
                     (log ++ [entry seen true])
        | Explored seen | Exhausted seen =>
            sources_loop G o rest (seen ++ explored)
                         (log ++ [entry seen false])
        | RemoveFailed | OutOfFuel =>
            mkLocals explored [] None true true (log ++ [entry [] false])
        end
  end.

(** [for i, edge in enumerate(cycle): if tail == final_node: break], then
    [cycle[i:]]; when no edge matches, [i] stays at the last index. *)
Fixpoint trim (G : Graph) (o : orientation) (final_node : node)
  (cycle : list TEdge) : list TEdge :=
  match cycle with
  | [] => []
  | edge :: rest =>
      if Nat.eqb (tail_of G o edge) final_node then cycle
      else match rest with
           | [] => cycle
           | _ => trim G o final_node rest
           end
  end.

Inductive fc_result :=
| Cycle (edges : list TEdge)
| NetworkXNoCycle
| Crash.

Definition find_cycle_locals (G : Graph) (source : option (list node))
  (o : orientation) : fc_locals :=
  sources_loop G o (nbunch_iter G source) [] [].

Definition find_cycle (G : Graph) (source : option (list node))
  (o : orientation) : fc_result :=
  let l := find_cycle_locals G source o in
  if l_error l then Crash
  else if l_broke l then
    match l_final_node l with
    | Some f => Cycle (trim G o f (l_cycle l))
    | None => Crash
    end
  else NetworkXNoCycle.

(** ** Set choice

    [set.pop()] removes an element the caller cannot choose.  The
    algorithms below take the choice as a parameter [pick]; whatever it
    answers, an element of the set is removed. *)
Definition set_pop (pick : list node -> node) (s : list node)
  : option (node * list node) :=
  match s with
  | [] => None
  | d :: _ =>
      let x := if mem (pick s) s then pick s else d in
      Some (x, remove_node_from x s)
  end.

Definition pick_first (s : list node) : node := hd 0 s.

(** ** Dicts keyed by nodes ([pred], [used], [B]) *)

Fixpoint lookup {A : Type} (n : node) (d : list (node * A)) : option A :=
  match d with
  | [] => None
  | (m, a) :: r => if Nat.eqb n m then Some a else lookup n r
  end.

Fixpoint assign {A : Type} (n : node) (a : A) (d : list (node * A))
  : list (node * A) :=
  match d with
  | [] => [(n, a)]
  | (m, a0) :: r => if Nat.eqb n m then (m, a) :: r
                    else (m, a0) :: assign n a r
  end.

Definition keys {A : Type} (d : list (node * A)) : list node := map fst d.

(** ** The kind guard

    Modelled from the spec: [not_implemented_for(kind)] of
    [networkx.utils] checks the kind of the graph when the decorated
    function is called and raises before the body runs. *)
Inductive outcome (A : Type) :=
| Returned (a : A)
| NetworkXNotImplemented
| KeyError
| Diverged.
Arguments Returned {A} a.
Arguments NetworkXNotImplemented {A}.
Arguments KeyError {A}.
Arguments Diverged {A}.

Definition not_implemented_for {A : Type} (refused : Graph -> bool)
  (body : Graph -> outcome A) (G : Graph) : outcome A :=
  if refused G then NetworkXNotImplemented else body G.

Definition directed_kind (G : Graph) : bool := is_directed G.
Definition undirected_kind (G : Graph) : bool := negb (is_directed G).

(** ** Spanning forests

    Modelled from the spec: [nx.minimum_spanning_tree] is an external
    utility that computes a spanning forest of an undirected graph.  With
    no weights it is Kruskal's scan of the edges in iteration order; the
    forest is a simple undirected graph on the nodes the kept edges touch
    and the nodes of degree zero. *)

(** Union-find as a labelling of the nodes met so far. *)
Definition uf_find (uf : list (node * node)) (n : node) : node :=
  match lookup n uf with Some r => r | None => n end.

Definition uf_union (uf : list (node * node)) (a b : node)
  : list (node * node) :=
  let ra := uf_find uf a in
  let rb := uf_find uf b in
  let uf1 := if mem a (keys uf) then uf else uf ++ [(a, ra)] in
  let uf2 := if mem b (keys uf1) then uf1 else uf1 ++ [(b, rb)] in
  map (fun p => if Nat.eqb (snd p) rb then (fst p, ra) else p) uf2.

Fixpoint kruskal (uf : list (node * node)) (l : list Edge) : list Edge :=
  match l with
  | [] => []
  | e :: r =>
      if Nat.eqb (uf_find uf (e_u e)) (uf_find uf (e_v e))
      then kruskal uf r
      else e :: kruskal (uf_union uf (e_u e) (e_v e)) r
  end.

Definition degree_zero (G : Graph) (n : node) : bool :=
  negb (existsb (fun e => Nat.eqb (e_u e) n || Nat.eqb (e_v e) n)
                (edge_list G)).

Definition minimum_spanning_tree (G : Graph) : Graph :=
  let T := of_edges false false (kruskal [] (edges_iter G)) in
  if Nat.eqb (length (node_list T)) (length (node_list G)) then T
  else add_nodes_from T (filter (degree_zero G) (node_list G)).

(** ** [chords] *)

Fixpoint remove_first_pair (p : node * node) (l : list (node * node))
  : list (node * node) :=
  match l with
  | [] => []
  | q :: r => if Nat.eqb (fst p) (fst q) && Nat.eqb (snd p) (snd q) then r
              else q :: remove_first_pair p r
  end.

(** The loop that recovers the keys: an edge of [G] whose pair of end
    points is still in [Tedges] is claimed and the pair is taken out;
    the loop stops as soon as [Tedges] is empty. *)
Fixpoint claim_tree_edges (Tedges : list (node * node)) (l : list Edge)
  : list Edge :=
  match l with
  | [] => []
  | e :: r =>
      if pair_mem (e_u e, e_v e) Tedges then
        let Tedges' := remove_first_pair (e_u e, e_v e) Tedges in
        match Tedges' with
        | [] => [e]
        | _ => e :: claim_tree_edges Tedges' r
        end
      else match Tedges with
           | [] => []
           | _ => claim_tree_edges Tedges r
           end
  end.

Definition keyed_mem (e : Edge) (l : list Edge) : bool :=
  existsb (fun f => Nat.eqb (e_u e) (e_u f) && Nat.eqb (e_v e) (e_v f)
                    && Nat.eqb (e_key e) (e_key f)) l.

(** [G.remove_edge(u, v)] of a simple graph, [G.remove_edge(u, v, key)] of
    a multigraph; an edge that is absent is passed over, as
    [remove_edges_from] does. *)
Definition remove_edge (G : Graph) (u v : node) (k : ekey) : Graph :=
  mkGraph (is_directed G) (is_multigraph G) (node_list G)
          (filter (fun e => negb (joins (is_directed G) u v e
                                  && (negb (is_multigraph G)
                                      || Nat.eqb (e_key e) k)))
                  (edge_list G)).

Definition remove_edges_from (G : Graph) (l : list Edge) : Graph :=
  fold_left (fun H e => remove_edge H (e_u e) (e_v e) (e_key e)) l G.

Definition chords (G : Graph) : Graph * Graph :=
  let T :=
    if is_directed G then
      if is_multigraph G
      then minimum_spanning_tree (convert false true G)
      else convert true false (minimum_spanning_tree (convert false false G))
    else minimum_spanning_tree G in
  let C := copy G in
  if is_multigraph G then
    let to_add := claim_tree_edges (edge_pairs T) (edges_iter G) in
    let T' := of_edges false true to_add in
    (remove_edges_from C
       (filter (fun n => keyed_mem n (edges_iter T')) (edges_iter G)), T')
  else
    (remove_edges_from C
       (filter (fun n => pair_mem (e_u n, e_v n) (edge_pairs T))
               (edges_iter G)), T).

(** ** [cycle_basis] *)

(** [while p not in pn: cycle.append(p); p = pred[p]], then
    [cycle.append(p)].  The cycle is built last node first. *)
Fixpoint climb (fuel : nat) (pred : list (node * node)) (pn : list node)
  (p : node) (cycle : list node) : outcome (list node) :=
  match fuel with
  | O => Diverged
  | S f =>
      if mem p pn then Returned (p :: cycle)
      else match lookup p pred with
           | Some q => climb f pred pn q (p :: cycle)
           | None => KeyError
           end
  end.

(** The state of the walk of one component. *)
Record walk := mkWalk {
  w_stack : list node;
  w_pred : list (node * node);
  w_used : list (node * list node);
  w_cycles : list (list node) }.

(** [for nbr in G[z]] *)
Fixpoint visit_nbrs (n : nat) (z : node) (zused : list node)
  (nbrl : list node) (w : walk) : outcome walk :=
  match nbrl with
  | [] => Returned w
  | nbr :: r =>
      match lookup nbr (w_used w) with
      | None =>
          visit_nbrs n z zused r
            (mkWalk (nbr :: w_stack w) (assign nbr z (w_pred w))
                    (assign nbr [z] (w_used w)) (w_cycles w))
      | Some pn =>
          if Nat.eqb nbr z then
            visit_nbrs n z zused r
              (mkWalk (w_stack w) (w_pred w) (w_used w) (w_cycles w ++ [[z]]))
          else if negb (mem nbr zused) then
            match lookup z (w_pred w) with
            | None => KeyError
            | Some p =>
                match climb n (w_pred w) pn p [z; nbr] with
                | Returned cyc =>
                    visit_nbrs n z zused r
                      (mkWalk (w_stack w) (w_pred w)
                              (assign nbr (set_add z pn) (w_used w))
                              (w_cycles w ++ [rev cyc]))
                | NetworkXNotImplemented => NetworkXNotImplemented
                | KeyError => KeyError
                | Diverged => Diverged
                end
            end
          else visit_nbrs n z zused r w
      end
  end.

(** [while stack] *)
Fixpoint walk_loop (fuel : nat) (G : Graph) (w : walk) : outcome walk :=
  match fuel with
  | O => Diverged
  | S f =>
      match w_stack w with
      | [] => Returned w
      | z :: rest =>
          match lookup z (w_used w) with
          | None => KeyError
          | Some zused =>
              if has_node G z then
                match visit_nbrs (S (length (node_list G))) z zused (nbrs G z)
                        (mkWalk rest (w_pred w) (w_used w) (w_cycles w)) with
                | Returned w' => walk_loop f G w'
                | NetworkXNotImplemented => NetworkXNotImplemented
                | KeyError => KeyError
                | Diverged => Diverged
                end
              else KeyError
          end
      end
  end.

(** [while gnodes]; [roots] logs, for every component walked, its root
    and the nodes that were left when the root was taken. *)
Fixpoint components_loop (fuel : nat) (pick : list node -> node) (G : Graph)
  (gnodes : list node) (root : option node) (cycles : list (list node))
  (roots : list (node * list node))
  : outcome (list (list node) * list (node * list node)) :=
  match fuel with
  | O => Diverged
  | S f =>
      match gnodes with
      | [] => Returned (cycles, roots)
      | _ =>
          let '(r, gnodes1) :=
            match root with
            | Some r => (r, gnodes)
            | None => match set_pop pick gnodes with
                      | Some (r, g') => (r, g')
                      | None => (0, gnodes)
                      end
            end in
          match walk_loop (S (S (length (node_list G)))) G
                  (mkWalk [r] [(r, r)] [(r, [])] cycles) with
          | Returned w =>
              components_loop f pick G
                (filter (fun n => negb (mem n (keys (w_pred w)))) gnodes1)
                None (w_cycles w) (roots ++ [(r, gnodes)])
          | NetworkXNotImplemented => NetworkXNotImplemented
          | KeyError => KeyError
          | Diverged => Diverged
          end
      end
  end.

(** The doubled edges of a multigraph: every chord whose end points are
    also joined by a tree edge gives a cycle of two nodes. *)
Definition doubled_edge_cycles (G : Graph) : list (list node) :=
  let '(C, T) := chords G in
  map (fun e => [e_u e; e_v e])
      (filter (fun e => has_edge T (e_u e) (e_v e)
                        || has_edge T (e_v e) (e_u e))
              (edges_iter C)).

Definition cycle_basis_trace (pick : list node -> node) (root : option node)
  : Graph -> outcome (list (list node) * list (node * list node)) :=
  not_implemented_for directed_kind
    (fun G =>
       let cycles := if is_multigraph G then doubled_edge_cycles G else [] in
       let G' := if is_multigraph G then convert false false G else G in
       components_loop (S (length (node_list G'))) pick G'
                       (set_of (node_list G')) root cycles []).

Definition cycle_basis (pick : list node -> node) (root : option node)
  (G : Graph) : outcome (list (list node)) :=
  match cycle_basis_trace pick root G with
  | Returned (cycles, _) => Returned cycles
  | NetworkXNotImplemented => NetworkXNotImplemented
  | KeyError => KeyError
  | Diverged => Diverged
  end.

(** ** Strongly connected components

    Modelled from the spec: [nx.strongly_connected_components] is an
    external service that partitions the nodes of a directed graph into
    its strongly connected components.  The components are listed by
    their first node in node order, each in node order. *)

Definition set_union (a b : list node) : list node :=
  fold_left (fun s x => set_add x s) b a.

Definition successors_of (G : Graph) (s : list node) : list node :=
  fold_left (fun acc n => set_union acc (nbrs G n)) s s.

Fixpoint closure (n : nat) (G : Graph) (s : list node) : list node :=
  match n with
  | O => s
  | S k => closure k G (successors_of G s)
  end.

Definition reachable (G : Graph) (u : node) : list node :=
  closure (length (node_list G)) G [u].

Definition component_of (G : Graph) (u : node) : list node :=
  let from_u := reachable G u in
  filter (fun v => mem v from_u && mem u (reachable G v)) (node_list G).

Fixpoint components_from (G : Graph) (done : list node) (ns : list node)
  : list (list node) :=
  match ns with
  | [] => []
  | u :: r =>
      if mem u done then components_from G done r
      else let c := component_of G u in
           c :: components_from G (c ++ done) r
  end.

Definition strongly_connected_components (G : Graph) : list (list node) :=
  components_from G [] (node_list G).

(** ** [simple_cycles]: Johnson's algorithm, iterative *)

(** [B] is a [defaultdict]: a missing key reads as the empty set. *)
Definition B_get (B : list (node * list node)) (n : node) : list node :=
  match lookup n B with Some s => s | None => [] end.

(** [_unblock(thisnode, blocked, B)]: [work] is the local set [stack]. *)
Fixpoint unblock_loop (fuel : nat) (work : list node) (blocked : list node)
  (B : list (node * list node)) : list node * list (node * list node) :=
  match fuel with
  | O => (blocked, B)
  | S f =>
      match work with
      | [] => (blocked, B)
      | n :: rest =>
          if mem n blocked
          then unblock_loop f (set_union rest (B_get B n))
                            (remove_node_from n blocked) (assign n [] B)
          else unblock_loop f rest blocked B
      end
  end.

Definition B_size (B : list (node * list node)) : nat :=
  fold_right (fun p acc => length (snd p) + acc) 0 B.

Definition unblock (thisnode : node) (blocked : list node)
  (B : list (node * list node)) : list node * list (node * list node) :=
  unblock_loop (S (length blocked + B_size B) * S (length blocked))
               [thisnode] blocked B.

(** The state of the search from one start node.  [c_path] has its last
    node first; a frame of [c_stack] holds a node and the neighbours it
    has not looked at, the next one to pop first; [c_out] holds the
    cycles yielded so far, the latest first. *)
Record circuit_state := mkCS {
  c_path : list node;
  c_blocked : list node;
  c_closed : list node;
  c_B : list (node * list node);
  c_stack : list (node * list node);
  c_out : list (list node) }.

(** [for nbr in subG[thisnode]: if thisnode not in B[nbr]: B[nbr].add(thisnode)] *)
Definition register (thisnode : node) (nbrl : list node)
  (B : list (node * list node)) : list (node * list node) :=
  fold_left (fun B' nbr => assign nbr (set_add thisnode (B_get B' nbr)) B')
            nbrl B.

(** The [if not nbrs:] block, with the frame [(thisnode, nbrs)] on top. *)
Definition leave (subG : Graph) (thisnode : node) (nbrl : list node)
  (rest : list (node * list node)) (st : circuit_state) : circuit_state :=
  match nbrl with
  | _ :: _ => mkCS (c_path st) (c_blocked st) (c_closed st) (c_B st)
                   ((thisnode, nbrl) :: rest) (c_out st)
  | [] =>
      let '(blocked', B') :=
        if mem thisnode (c_closed st)
        then unblock thisnode (c_blocked st) (c_B st)
        else (c_blocked st, register thisnode (nbrs subG thisnode) (c_B st)) in
      mkCS (tl (c_path st)) blocked' (c_closed st) B' rest (c_out st)
  end.

(** One turn of [while stack]. *)
Definition circuit_step (subG : Graph) (startnode : node)
  (st : circuit_state) : circuit_state :=
  match c_stack st with
  | [] => st
  | (thisnode, nbrl) :: rest =>
      match nbrl with
      | [] => leave subG thisnode [] rest st
      | nextnode :: nbrl' =>
          if Nat.eqb nextnode startnode then
            leave subG thisnode nbrl' rest
                  (mkCS (c_path st) (c_blocked st)
                        (set_union (c_closed st) (rev (c_path st)))
                        (c_B st) (c_stack st) (rev (c_path st) :: c_out st))
          else if negb (mem nextnode (c_blocked st)) then
            mkCS (nextnode :: c_path st) (set_add nextnode (c_blocked st))
                 (remove_node_from nextnode (c_closed st)) (c_B st)
                 ((nextnode, rev (nbrs subG nextnode))
                    :: (thisnode, nbrl') :: rest)
                 (c_out st)
          else leave subG thisnode nbrl' rest st
      end
  end.

Definition finished (st : circuit_state) : bool :=
  match c_stack st with [] => true | _ => false end.

(** Up to [2 ^ n] turns of the loop, stopping when the stack is empty. *)
Fixpoint circuit_run (n : nat) (subG : Graph) (startnode : node)
  (st : circuit_state) : circuit_state :=
  match n with
  | O => circuit_step subG startnode st
  | S k =>
      let st' := circuit_run k subG startnode st in
      if finished st' then st' else circuit_run k subG startnode st'
  end.

Definition circuit_start (subG : Graph) (startnode : node)
  (out : list (list node)) : circuit_state :=
  mkCS [startnode] [startnode] [] []
       [(startnode, rev (nbrs subG startnode))] out.

(** Turns allowed to one start node: [2 ^ run_bound]. *)
Definition run_bound (subG : Graph) : nat :=
  let n := S (S (length (node_list subG))) in n * n.

(** [while sccs]: [sccs] has the component to pop first. *)
Fixpoint sccs_loop (fuel : nat) (pick : list node -> node) (subG : Graph)
  (sccs : list (list node)) (out : list (list node))
  : outcome (list (list node)) :=
  match fuel with
  | O => Diverged
  | S f =>
      match sccs with
      | [] => Returned (rev' out)
      | scc :: rest =>
          match set_pop pick scc with
          | None => KeyError
          | Some (startnode, scc') =>
              let st := circuit_run (run_bound subG) subG startnode
                                    (circuit_start subG startnode out) in
              if finished st then
                let subG' := remove_node subG startnode in
                let H := subgraph subG' scc' in
                sccs_loop f pick subG'
                          (rev (strongly_connected_components H) ++ rest)
                          (c_out st)
              else Diverged
          end
      end
  end.

Definition simple_cycles (pick : list node -> node)
  : Graph -> outcome (list (list node)) :=
  not_implemented_for undirected_kind
    (fun G =>
       let subG := of_pairs true (is_multigraph G) (edge_pairs G) in
       sccs_loop (S (length (node_list subG))) pick subG
                 (rev (strongly_connected_components subG)) []).

(** ** [recursive_simple_cycles]: Johnson's algorithm, recursive *)

(** The variables shared by [_unblock] and [circuit]: [r_path] has its
    last node first, [r_blocked] holds the nodes whose flag is [True],
    the lists of [r_B] have their last element first, and [r_result]
    holds the circuits found so far, the latest first. *)
Record rec_state := mkRS {
  r_path : list node;
  r_blocked : list node;
  r_B : list (node * list node);
  r_result : list (list node) }.

(** [_unblock] after its flag test: [frames] are the calls whose
    [while B[thisnode]] loop is running, the innermost first. *)
Fixpoint unblock_calls (fuel : nat) (frames : list node)
  (blocked : list node) (B : list (node * list node))
  : outcome (list node * list (node * list node)) :=
  match fuel with
  | O => Diverged
  | S f =>
      match frames with
      | [] => Returned (blocked, B)
      | t :: rest =>
          match B_get B t with
          | [] => unblock_calls f rest blocked B
          | w :: ws =>
              let B' := assign t ws B in
              if mem w blocked
              then unblock_calls f (w :: t :: rest)
                                 (remove_node_from w blocked) B'
              else unblock_calls f (t :: rest) blocked B'
          end
      end
  end.

Definition unblock_rec (thisnode : node) (blocked : list node)
  (B : list (node * list node))
  : outcome (list node * list (node * list node)) :=
  if mem thisnode blocked
  then unblock_calls (S (S (2 * B_size B))) [thisnode]
                     (remove_node_from thisnode blocked) B
  else Returned (blocked, B).

(** [if thisnode not in B[nextnode]: B[nextnode].append(thisnode)] *)
Definition register_rec (thisnode : node) (nbrl : list node)
  (B : list (node * list node)) : list (node * list node) :=
  fold_left (fun B' nbr =>
               if mem thisnode (B_get B' nbr) then B'
               else assign nbr (thisnode :: B_get B' nbr) B')
            nbrl B.

(** [circuit(thisnode, startnode, component)]; [fuel] bounds the depth of
    the recursion.  The inner [fix] is the first [for nextnode] loop. *)
Fixpoint circuit (fuel : nat) (component : Graph) (startnode : node)
  (thisnode : node) (st : rec_state) : outcome (bool * rec_state) :=
  match fuel with
  | O => Diverged
  | S f =>
      let st0 := mkRS (thisnode :: r_path st) (set_add thisnode (r_blocked st))
                      (r_B st) (r_result st) in
      let scan :=
        fix scan (nbrl : list node) (closed : bool) (s : rec_state)
          : outcome (bool * rec_state) :=
          match nbrl with
          | [] => Returned (closed, s)
          | nextnode :: r =>
              if Nat.eqb nextnode startnode then
                scan r true (mkRS (r_path s) (r_blocked s) (r_B s)
                                  (rev (r_path s) :: r_result s))
              else if negb (mem nextnode (r_blocked s)) then
                match circuit f component startnode nextnode s with
                | Returned (c, s') => scan r (c || closed) s'
                | NetworkXNotImplemented => NetworkXNotImplemented
                | KeyError => KeyError
                | Diverged => Diverged
                end
              else scan r closed s
          end in
      match scan (nbrs component thisnode) false st0 with
      | Returned (closed, s) =>
          if closed then
            match unblock_rec thisnode (r_blocked s) (r_B s) with
            | Returned (blocked', B') =>
                Returned (closed,
                          mkRS (tl (r_path s)) blocked' B' (r_result s))
            | NetworkXNotImplemented => NetworkXNotImplemented
            | KeyError => KeyError
            | Diverged => Diverged
            end
          else
            Returned (closed,
                      mkRS (tl (r_path s)) (r_blocked s)
                           (register_rec thisnode (nbrs component thisnode)
                                         (r_B s))
                           (r_result s))
      | NetworkXNotImplemented => NetworkXNotImplemented
      | KeyError => KeyError
      | Diverged => Diverged
      end
  end.

Fixpoint index_of (n : node) (l : list node) : nat :=
  match l with
  | [] => 0
  | m :: r => if Nat.eqb n m then 0 else S (index_of n r)
  end.

Definition min_index (order : list node) (c : list node) : nat :=
  fold_right (fun n acc => Nat.min (index_of n order) acc) (length order) c.

(** [min(strongcomp, key=...)]: the first component of least key. *)
Fixpoint min_component (order : list node) (cs : list (list node))
  : option (list node) :=
  match cs with
  | [] => None
  | c :: r =>
      match min_component order r with
      | None => Some c
      | Some c' => if Nat.leb (min_index order c) (min_index order c')
                   then Some c else Some c'
      end
  end.

(** [for node in component: blocked[node] = False; B[node][:] = []] *)
Definition reset_component (c : list node) (st : rec_state) : rec_state :=
  mkRS (r_path st)
       (filter (fun n => negb (mem n c)) (r_blocked st))
       (fold_left (fun B n => assign n [] B) c (r_B st))
       (r_result st).

(** [for s in ordering] *)
Fixpoint starts_loop (G : Graph) (ss : list node) (st : rec_state)
  : outcome (list (list node)) :=
  match ss with
  | [] => Returned (rev' (r_result st))
  | s :: rest =>
      let order := node_list G in
      let sub := subgraph G (filter (fun n => Nat.leb (index_of s order)
                                                      (index_of n order))
                                    order) in
      match min_component order (strongly_connected_components sub) with
      | None => KeyError
      | Some mincomp =>
          let component := subgraph G mincomp in
          match node_list component with
          | [] => starts_loop G rest st
          | first :: others =>
              let startnode :=
                fold_left (fun m n => if Nat.ltb (index_of n order)
                                                 (index_of m order)
                                      then n else m) others first in
              match circuit (S (length (node_list component))) component
                            startnode startnode
                            (reset_component (node_list component) st) with
              | Returned (_, st') => starts_loop G rest st'
              | NetworkXNotImplemented => NetworkXNotImplemented
              | KeyError => KeyError
              | Diverged => Diverged
              end
          end
      end
  end.

Definition recursive_simple_cycles : Graph -> outcome (list (list node)) :=
  not_implemented_for undirected_kind
    (fun G => starts_loop G (node_list G) (mkRS [] [] [] [])).

(** * The operations over a store of graph objects

    A Python graph is an object that several names can share and that
    [remove_node] and [remove_edges_from] change in place.  Here the
    objects live in a store, a call receives the reference of the caller's
    graph, every constructor, [copy] and [subgraph] allocates a new object
    and every mutating method rewrites the object it is called on.  All the
    rest of each operation is the code embedded above. *)

Definition ref := nat.
Definition store := list Graph.

(** A computation over the store: its outcome and the store it leaves. *)
Definition M (A : Type) : Type := store -> outcome A * store.

Definition ret {A : Type} (a : A) : M A := fun h => (Returned a, h).

Definition lift {A : Type} (r : outcome A) : M A := fun h => (r, h).

Definition bind {A B : Type} (m : M A) (f : A -> M B) : M B :=
  fun h =>
    match m h with
    | (Returned a, h') => f a h'
    | (NetworkXNotImplemented, h') => (NetworkXNotImplemented, h')
    | (KeyError, h') => (KeyError, h')
    | (Diverged, h') => (Diverged, h')
    end.

Notation "x <- m ;; k" := (bind m (fun x => k))
  (at level 61, m at next level, right associativity).

(** A constructor call: the new object gets the next reference. *)
Definition new_object (g : Graph) : M ref :=
  fun h => (Returned (length h), h ++ [g]).

Definition read (r : ref) : M Graph :=
  fun h => match nth_error h r with
           | Some g => (Returned g, h)
           | None => (KeyError, h)
           end.

Fixpoint replace_at (r : nat) (g : Graph) (h : store) {struct h} : store :=
  match h with
  | [] => []
  | x :: t => match r with
              | O => g :: t
              | S r' => x :: replace_at r' g t
              end
  end.

(** A mutating method of the object at [r]. *)
Definition mutate (r : ref) (f : Graph -> Graph) : M unit :=
  fun h => match nth_error h r with
           | Some g => (Returned tt, replace_at r (f g) h)
           | None => (KeyError, h)
           end.

(** [find_cycle] only reads [G]. *)
Definition find_cycle_st (rG : ref) (source : option (list node))
  (o : orientation) : M fc_result :=
  G <- read rG ;; ret (find_cycle G source o).

(** [chords]: [nx.MultiGraph(G)], [nx.Graph(G)], [nx.DiGraph(...)], the
    spanning tree, [G.copy()] and [nx.MultiGraph(to_add)] are new objects;
    [C.remove_edges_from] changes the copy.  The result is the pair of the
    references of [C] and [T]. *)
Definition chords_st (rG : ref) : M (ref * ref) :=
  G <- read rG ;;
  rT <- (if is_directed G then
           if is_multigraph G then
             rU <- new_object (convert false true G) ;;
             U <- read rU ;;
             new_object (minimum_spanning_tree U)
           else
             rU <- new_object (convert false false G) ;;
             U <- read rU ;;
             rF <- new_object (minimum_spanning_tree U) ;;
             F <- read rF ;;
             new_object (convert true false F)
         else new_object (minimum_spanning_tree G)) ;;
  rC <- new_object (copy G) ;;
  T <- read rT ;;
  if is_multigraph G then
    rT' <- new_object
             (of_edges false true
                       (claim_tree_edges (edge_pairs T) (edges_iter G))) ;;
    T' <- read rT' ;;
    _ <- mutate rC
           (fun C => remove_edges_from C
                       (filter (fun n => keyed_mem n (edges_iter T'))
                               (edges_iter G))) ;;
    ret (rC, rT')
  else
    _ <- mutate rC
           (fun C => remove_edges_from C
                       (filter (fun n => pair_mem (e_u n, e_v n)
                                                  (edge_pairs T))
                               (edges_iter G))) ;;
    ret (rC, rT).

(** [cycle_basis]: for a multigraph the chords are computed and
    [G = nx.Graph(G)] binds the name to a new object; the walk reads it. *)
Definition cycle_basis_st (pick : list node -> node) (root : option node)
  (rG : ref) : M (list (list node)) :=
  G <- read rG ;;
  if directed_kind G then lift NetworkXNotImplemented
  else
    p <- (if is_multigraph G then
            ct <- chords_st rG ;;
            C <- read (fst ct) ;;
            T <- read (snd ct) ;;
            rG' <- new_object (convert false false G) ;;
            ret (map (fun e => [e_u e; e_v e])
                     (filter (fun e => has_edge T (e_u e) (e_v e)
                                       || has_edge T (e_v e) (e_u e))
                             (edges_iter C)), rG')
          else ret ([], rG)) ;;
    G' <- read (snd p) ;;
    match components_loop (S (length (node_list G'))) pick G'
                          (set_of (node_list G')) root (fst p) [] with
    | Returned (cycles, _) => ret cycles
    | NetworkXNotImplemented => lift NetworkXNotImplemented
    | KeyError => lift KeyError
    | Diverged => lift Diverged
    end.

(** [simple_cycles]: [subG = type(G)(G.edges())] is a new object, changed
    by [subG.remove_node(startnode)] after every start node;
    [H = subG.subgraph(scc)] is a new object. *)
Fixpoint sccs_loop_st (fuel : nat) (pick : list node -> node) (rS : ref)
  (sccs : list (list node)) (out : list (list node))
  : M (list (list node)) :=
  match fuel with
  | O => lift Diverged
  | S f =>
      match sccs with
      | [] => ret (rev' out)
      | scc :: rest =>
          match set_pop pick scc with
          | None => lift KeyError
          | Some (startnode, scc') =>
              subG <- read rS ;;
              let st := circuit_run (run_bound subG) subG startnode
                                    (circuit_start subG startnode out) in
              if finished st then
                _ <- mutate rS (fun g => remove_node g startnode) ;;
                subG' <- read rS ;;
                rH <- new_object (subgraph subG' scc') ;;
                H <- read rH ;;
                sccs_loop_st f pick rS
                             (rev (strongly_connected_components H) ++ rest)
                             (c_out st)
              else lift Diverged
          end
      end
  end.

Definition simple_cycles_st (pick : list node -> node) (rG : ref)
  : M (list (list node)) :=
  G <- read rG ;;
  if undirected_kind G then lift NetworkXNotImplemented
  else
    rS <- new_object (of_pairs true (is_multigraph G) (edge_pairs G)) ;;
    subG <- read rS ;;
    sccs_loop_st (S (length (node_list subG))) pick rS
                 (rev (strongly_connected_components subG)) [].

(** [recursive_simple_cycles]: the two [G.subgraph(...)] of every start
    node are new objects; no object is changed. *)
Fixpoint starts_loop_st (rG : ref) (ss : list node) (st : rec_state)
  : M (list (list node)) :=
  match ss with
  | [] => ret (rev' (r_result st))
  | s :: rest =>
      G <- read rG ;;
      let order := node_list G in
      rsub <- new_object
                (subgraph G (filter (fun n => Nat.leb (index_of s order)
                                                      (index_of n order))
                                    order)) ;;
      sub <- read rsub ;;
      match min_component order (strongly_connected_components sub) with
      | None => lift KeyError
      | Some mincomp =>
          rcomp <- new_object (subgraph G mincomp) ;;
          component <- read rcomp ;;
          match node_list component with
          | [] => starts_loop_st rG rest st
          | first :: others =>
              let startnode :=
                fold_left (fun m n => if Nat.ltb (index_of n order)
                                                 (index_of m order)
                                      then n else m) others first in
              match circuit (S (length (node_list component))) component
                            startnode startnode
                            (reset_component (node_list component) st) with
              | Returned (_, st') => starts_loop_st rG rest st'
              | NetworkXNotImplemented => lift NetworkXNotImplemented
              | KeyError => lift KeyError
              | Diverged => lift Diverged
              end
          end
      end
  end.

Definition recursive_simple_cycles_st (rG : ref) : M (list (list node)) :=
  G <- read rG ;;
  if undirected_kind G then lift NetworkXNotImplemented
  else starts_loop_st rG (node_list G) (mkRS [] [] [] []).

(** A computation keeps the objects below [n]. *)
Definition keeps (n : nat) {A : Type} (m : M A) : Prop :=
  forall h, n <= length h ->
    n <= length (snd (m h)) /\ firstn n (snd (m h)) = firstn n h.

(** ** [cycle_basis_matrix]

    The matrix is a list of rows of integers ([numpy] is not in
    [src]: [np.zeros] gives the rows of zeros, [M[row, col] = v] replaces
    one entry and raises [IndexError] out of range).  The exceptions the
    function can end with are the ones it raises and the ones of the list
    methods and of [cycle_basis] it calls. *)

Inductive exn :=
| NotImplementedExn
| ValueErrorExn
| IndexErrorExn
| NameErrorExn
| KeyErrorExn
| DivergedExn.

Definition matrix := list (list Z).

Definition zeros (nrow ncol : nat) : matrix := repeat (repeat 0%Z ncol) nrow.

Fixpoint set_nth {A : Type} (i : nat) (a : A) (l : list A) {struct l}
  : list A :=
  match l with
  | [] => []
  | x :: r => match i with
              | O => a :: r
              | S j => x :: set_nth j a r
              end
  end.

(** [M[row, col] = v] *)
Definition set_entry (M : matrix) (row col : nat) (v : Z) : matrix + exn :=
  match nth_error M row with
  | None => inr IndexErrorExn
  | Some r => if Nat.ltb col (length r)
              then inl (set_nth row (set_nth col v r) M)
              else inr IndexErrorExn
  end.

(** [l.index(x)]; [None] is [ValueError]. *)
Fixpoint index {A : Type} (eqb : A -> A -> bool) (x : A) (l : list A)
  : option nat :=
  match l with
  | [] => None
  | y :: r => if eqb x y then Some 0
              else match index eqb x r with
                   | Some i => Some (S i)
                   | None => None
                   end
  end.

Definition pair_eqb (p q : node * node) : bool :=
  Nat.eqb (fst p) (fst q) && Nat.eqb (snd p) (snd q).

(** [G.edges()] or [G.edges(keys=True)] as tuples. *)
Definition edge_tuples (G : Graph) (keys : bool)
  : list (node * node * option ekey) :=
  map (fun e => (e_u e, e_v e, if keys then Some (e_key e) else None))
      (edges_iter G).

(** [Gedges.index(Tedges[T.edges().index(p)])] *)
Definition tree_row (T : Graph) (Gedges Tedges : list (node * node * option ekey))
  (p : node * node) : nat + exn :=
  match index pair_eqb p (edge_pairs T) with
  | None => inr ValueErrorExn
  | Some i =>
      match nth_error Tedges i with
      | None => inr IndexErrorExn
      | Some t => match index id_eqb t Gedges with
                  | None => inr ValueErrorExn
                  | Some r => inl r
                  end
      end
  end.

(** [for ce in cyc_e] *)
Fixpoint fill_cycle (T : Graph) (Gedges Tedges : list (node * node * option ekey))
  (col : nat) (l : list (node * node)) (M : matrix) : matrix + exn :=
  match l with
  | [] => inl M
  | ce :: r =>
      match tree_row T Gedges Tedges ce with
      | inl row2 =>
          match set_entry M row2 col 1 with
          | inl M' => fill_cycle T Gedges Tedges col r M'
          | inr x => inr x
          end
      | inr ValueErrorExn =>
          match tree_row T Gedges Tedges (snd ce, fst ce) with
          | inl row2 =>
              match set_entry M row2 col (-1) with
              | inl M' => fill_cycle T Gedges Tedges col r M'
              | inr x => inr x
              end
          | inr x => inr x
          end
      | inr x => inr x
      end
  end.

(** The body of [for col, e in enumerate(Cedges_iter)]. *)
Definition fill_column (pick : list node -> node) (T : Graph)
  (Gedges Tedges : list (node * node * option ekey)) (col : nat)
  (e : node * node * option ekey) (M : matrix) : matrix + exn :=
  match index id_eqb e Gedges with
  | None => inr ValueErrorExn
  | Some row =>
      match set_entry M row col 1 with
      | inr x => inr x
      | inl M1 =>
          let edge := fst e in
          let edge_inv := (snd edge, fst edge) in
          match tree_row T Gedges Tedges edge with
          | inl row2 => set_entry M1 row2 col (-1)
          | inr ValueErrorExn =>
              match tree_row T Gedges Tedges edge_inv with
              | inl row2 => set_entry M1 row2 col 1
              | inr ValueErrorExn =>
                  match cycle_basis pick None
                          (of_pairs false false (edge_pairs T ++ [edge])) with
                  | Returned [] => inr IndexErrorExn
                  | Returned (cyc :: _) =>
                      let cyc_e := combine cyc (tl cyc ++ firstn 1 cyc) in
                      if pair_mem edge_inv cyc_e then
                        fill_cycle T Gedges Tedges col
                          (remove_first_pair edge
                             (map (fun i => (snd i, fst i)) cyc_e))
                          M1
                      else if negb (pair_mem edge cyc_e) then inr NameErrorExn
                      else fill_cycle T Gedges Tedges col
                             (remove_first_pair edge cyc_e) M1
                  | NetworkXNotImplemented => inr NotImplementedExn
                  | KeyError => inr KeyErrorExn
                  | Diverged => inr DivergedExn
                  end
              | inr x => inr x
              end
          | inr x => inr x
          end
      end
  end.

Fixpoint fill_columns (pick : list node -> node) (T : Graph)
  (Gedges Tedges : list (node * node * option ekey)) (col : nat)
  (Cedges : list (node * node * option ekey)) (M : matrix) : matrix + exn :=
  match Cedges with
  | [] => inl M
  | e :: r =>
      match fill_column pick T Gedges Tedges col e M with
      | inl M' => fill_columns pick T Gedges Tedges (S col) r M'
      | inr x => inr x
      end
  end.

Definition cycle_basis_matrix (pick : list node -> node) (G : Graph)
  (sparse : bool) : matrix + exn :=
  let '(C, T) := chords G in
  let nrow := length (edges_iter G) in
  let ncol := length (edges_iter C) in
  if is_directed G then inr NotImplementedExn
  else if sparse then inr NotImplementedExn
  else
    let keys := is_multigraph G in
    fill_columns pick T (edge_tuples G keys) (edge_tuples T keys) 0
                 (edge_tuples C keys) (zeros nrow ncol).

(** The entries [cycle_basis_matrix] writes. *)
Definition sign (v : Z) : Prop := v = (-1)%Z \/ v = 0%Z \/ v = 1%Z.

(** [M] has [nrow] rows of [ncol] entries, each a sign. *)
Definition shaped (nrow ncol : nat) (M : matrix) : Prop :=
  length M = nrow /\
  Forall (fun r => length r = ncol /\ Forall sign r) M.

(** * Vocabulary of the statements *)

(** The identity of a stored edge. *)
Definition stored_id (G : Graph) (e : Edge) : node * node * option ekey :=
  if is_directed G then (e_u e, e_v e, keyed G (e_key e))
  else (Nat.min (e_u e) (e_v e), Nat.max (e_u e) (e_v e), keyed G (e_key e)).

(** An edge handed out at node [n] leaves [n] and is an edge of the graph. *)
Definition edge_ok (G : Graph) (o : orientation) (n : node) (e : TEdge) : Prop :=
  tail_of G o e = n /\ In (edge_id G e) (map (stored_id G) (edge_list G)).

Definition its_ok (G : Graph) (o : orientation)
  (its : list (node * list TEdge)) : Prop :=
  forall n l, iter_get n its = Some l -> forall e, In e l -> edge_ok G o n e.

Definition heads (G : Graph) (o : orientation) (edges : list TEdge)
  : list node := map (head_of G o) edges.

(** The path, last edge first, starts at [start] and every edge leaves
    the head of the one before it. *)
Fixpoint chained (G : Graph) (o : orientation) (start : node)
  (edges : list TEdge) : Prop :=
  match edges with
  | [] => True
  | e :: rest =>
      tail_of G o e = match rest with
                      | [] => start
                      | e' :: _ => head_of G o e'
                      end
      /\ chained G o start rest
  end.

Definition ids (G : Graph) : list (node * node * option ekey) :=
  map (stored_id G) (edge_list G).

(** What holds between two turns of the loop over the generator. *)
Record inv (G : Graph) (o : orientation) (explored : list node)
  (start : node) (st : dfs_state) (edges : list TEdge) (active : list node)
  (prev : option node) : Prop := mkInv {
  inv_stack : d_stack st = heads G o edges ++ [start];
  inv_nodup : NoDup (d_stack st);
  inv_active : forall x, In x active <-> In x (d_stack st);
  inv_prev : prev = match edges with
                    | [] => None
                    | e :: _ => Some (head_of G o e)
                    end;
  inv_chain : chained G o start edges;
  inv_iters : its_ok G o (d_iters st);
  inv_vedges : NoDup (d_vedges st) /\ incl (d_vedges st) (ids G);
  inv_fresh : forall x, In x (d_stack st) -> ~ In x explored }.

(** What a search that closes a cycle hands over. *)
Definition closes (G : Graph) (o : orientation) (start : node)
  (edges2 : list TEdge) (final : node) : Prop :=
  chained G o start edges2 /\
  match edges2 with
  | [] => False
  | e :: edges1 =>
      head_of G o e = final /\
      In final (heads G o edges1 ++ [start]) /\
      NoDup (heads G o edges1 ++ [start])
  end.

(** A forward path: every edge ends where the next one starts. *)
Fixpoint linked (G : Graph) (o : orientation) (c : list TEdge) : Prop :=
  match c with
  | [] => True
  | e :: rest =>
      match rest with
      | [] => True
      | e' :: _ => head_of G o e = tail_of G o e'
      end /\ linked G o rest
  end.

(** The explored set once the search logged as [en] is over. *)
Definition merged (explored : list node) (en : search_log) : list node :=
  if s_found en then explored else s_seen en ++ explored.

(** Each search of the log starts from the explored set the one before
    it left. *)
Fixpoint threaded (explored : list node) (log : list search_log) : Prop :=
  match log with
  | [] => True
  | en :: rest =>
      s_explored en = explored /\ threaded (merged explored en) rest
  end.

(** The search logged as [en] did not start at an explored node and read
    no edge that leaves one. *)
Definition searched (G : Graph) (o : orientation) (en : search_log) : Prop :=
  ~ In (s_start en) (s_explored en) /\
  forall e, In e (s_read en) -> ~ In (tail_of G o e) (s_explored en).


(** ** Circuits *)

(** The steps of the closed walk through [c]: each node to the next, and
    the last back to the first. *)
Definition steps (c : list node) : list (node * node) :=
  combine c (tl c ++ firstn 1 c).

(** [c] is an elementary circuit of [G]: it is not empty, visits no node
    twice, and every step is an edge. *)
Definition elementary_circuit (G : Graph) (c : list node) : Prop :=
  c <> [] /\ NoDup c /\
  forall u v, In (u, v) (steps c) -> has_edge G u v = true.

(** [b] is [a] read from another starting point. *)
Definition rotation (a b : list node) : Prop :=
  exists k, b = skipn k a ++ firstn k a.

(** The complete directed graph on the nodes [0 .. n-1]. *)
Definition complete_pairs (n : nat) : list (node * node) :=
  flat_map (fun u =>
              flat_map (fun v => if Nat.eqb u v then [] else [(u, v)])
                       (seq 0 n))
           (seq 0 n).

Definition complete_graph (n : nat) : Graph :=
  of_pairs true false (complete_pairs n).

(** Decision procedures for the statements about enumerated circuits. *)
Fixpoint nodupb (l : list node) : bool :=
  match l with
  | [] => true
  | x :: r => negb (mem x r) && nodupb r
  end.

Definition circuitb (G : Graph) (c : list node) : bool :=
  match c with
  | [] => false
  | _ => nodupb c && forallb (fun p => has_edge G (fst p) (snd p)) (steps c)
  end.

(** The first node is smaller than every other node. *)
Definition min_first (c : list node) : bool :=
  match c with
  | [] => false
  | s :: r => forallb (fun x => Nat.ltb s x) r
  end.

(** A number for a circuit of at most eight nodes below sixteen. *)
Definition enc (c : list node) : N :=
  match c with
  | [] => 0%N
  | s :: r =>
      fold_left (fun acc d => (acc * 16 + d)%N)
                (map (fun x => N.of_nat (15 - x)) r
                 ++ repeat 15%N (8 - length c))
                (N.of_nat s)
  end.

Fixpoint increasing (l : list N) : bool :=
  match l with
  | [] => true
  | a :: r =>
      match r with
      | [] => true
      | b :: _ => N.ltb a b && increasing r
      end
  end.

Definition circuits_ok (G : Graph) (k : nat) (l : list (list node)) : bool :=
  Nat.eqb (length l) k && forallb (circuitb G) l && forallb min_first l
  && increasing (map enc l).

Definition enumerates (n k : nat) : bool :=
  match simple_cycles pick_first (complete_graph n) with
  | Returned l => circuits_ok (complete_graph n) k l
  | _ => false
  end.

(** The numbers of circuits of the complete directed graphs on 2 to 8
    nodes. *)
Definition circuit_counts : list (nat * nat) :=
  [(2, 1); (3, 5); (4, 20); (5, 84); (6, 409); (7, 2365); (8, 16064)].

(** A step of a simple directed graph, as [find_cycle] returns it. *)
Definition step (u v : node) : TEdge := mkT u v None None.

(** ** Comparing two enumerations of circuits *)

Fixpoint list_eqb (a b : list node) : bool :=
  match a, b with
  | [], [] => true
  | x :: a', y :: b' => Nat.eqb x y && list_eqb a' b'
  | _, _ => false
  end.

(** [is_cyclic_permutation] of the tests. *)
Definition is_rotation (a b : list node) : bool :=
  existsb (fun k => list_eqb b (skipn k a ++ firstn k a))
          (seq 0 (S (length a))).

(** Same count, and every circuit of one list is a rotation of a circuit
    of the other. *)
Definition same_circuits (la lb : list (list node)) : Prop :=
  length la = length lb /\
  Forall (fun a => Exists (rotation a) lb) la /\
  Forall (fun b => Exists (fun a => rotation a b) la) lb.

Definition same_circuitsb (la lb : list (list node)) : bool :=
  Nat.eqb (length la) (length lb)
  && forallb (fun a => existsb (is_rotation a) lb) la
  && forallb (fun b => existsb (fun a => is_rotation a b) la) lb.

(** The two enumerators agree on [G]. *)
Definition enumerators_agree (G : Graph) : Prop :=
  exists la lb,
    simple_cycles pick_first G = Returned la /\
    recursive_simple_cycles G = Returned lb /\
    same_circuits la lb.

Definition enumerators_agreeb (G : Graph) : bool :=
  match simple_cycles pick_first G, recursive_simple_cycles G with
  | Returned la, Returned lb => same_circuitsb la lb
  | _, _ => false
  end.

(** Every way of keeping some elements of a list, in the order of the
    list. *)
Fixpoint sublists {A : Type} (l : list A) : list (list A) :=
  match l with
  | [] => [[]]
  | x :: r => map (cons x) (sublists r) ++ sublists r
  end.

(** All ordered pairs of the nodes [0 .. n-1], self-loops included. *)
Definition all_pairs (n : nat) : list (node * node) :=
  flat_map (fun u => map (fun v => (u, v)) (seq 0 n)) (seq 0 n).

(** ** Closed walks *)

(** Every element of [c] with the one after it, the last with [s]. *)
Definition succ_pairs (c : list node) (s : node) : list (node * node) :=
  combine c (tl c ++ [s]).

(** [c] is not empty and every step of it, the one from its last node
    back to its first included, is an edge of [G]. *)
Definition closed_walk (G : Graph) (c : list node) : Prop :=
  c <> [] /\ forall u v, In (u, v) (steps c) -> has_edge G u v = true.

(** What the loop of [simple_cycles] keeps between two turns, for the
    graph [subG] it walks and the graph [G] it was called on: the path
    and the stack hold the same nodes, the path starts at [startnode],
    every frame holds neighbours of its node, the path walks along edges,
    and what was yielded are closed walks of [G]. *)
Record circuit_inv (G subG : Graph) (startnode : node)
  (st : circuit_state) : Prop := mkCInv {
  ci_stack : map fst (c_stack st) = c_path st;
  ci_start : c_stack st <> [] -> exists pre, c_path st = pre ++ [startnode];
  ci_frames : Forall (fun fr => incl (snd fr) (nbrs subG (fst fr)))
                     (c_stack st);
  ci_walk : forall u v,
      In (u, v) (succ_pairs (rev (tl (c_path st))) (hd 0 (c_path st))) ->
      has_edge G u v = true;
  ci_out : Forall (closed_walk G) (c_out st) }.

(** The path [p], last node first, starts at [startnode] and walks
    along edges of [G]. *)
Definition walks (G : Graph) (startnode : node) (p : list node) : Prop :=
  (exists pre, p = pre ++ [startnode]) /\
  forall u v, In (u, v) (succ_pairs (rev (tl p)) (hd 0 p)) ->
              has_edge G u v = true.

(** What the walk of one component in [cycle_basis] keeps between two
    turns: [pred] and [used] only relate end points of edges, the root
    is its own predecessor and is on the stack only at the start, and the
    cycles found are closed walks. *)
Record walk_inv (G : Graph) (root : node) (w : walk) : Prop := mkWInv {
  wi_pred : forall x q,
      lookup x (w_pred w) = Some q ->
      (x = root /\ q = root) \/ has_edge G q x = true;
  wi_used : forall x pn y,
      lookup x (w_used w) = Some pn -> In y pn -> has_edge G y x = true;
  wi_root : lookup root (w_used w) <> None;
  wi_stack : In root (w_stack w) ->
             w_stack w = [root] /\
             forall x a, lookup x (w_used w) = Some a -> x = root;
  wi_cycles : Forall (closed_walk G) (w_cycles w) }.

(** * Properties *)

(** ** Sets as lists *)

Lemma mem_In (x : node) (s : list node) : mem x s = true <-> In x s.
Proof.
  unfold mem. rewrite existsb_exists. split.
  - intros [y [Hy E]]. apply Nat.eqb_eq in E. now subst.
  - intros H. exists x. split; [assumption | apply Nat.eqb_refl].
Qed.

Lemma mem_false_In (x : node) (s : list node) : mem x s = false <-> ~ In x s.
Proof.
  rewrite <- mem_In. destruct (mem x s); split; intros; congruence.
Qed.

Lemma In_set_add (x y : node) (s : list node) :
  In x (set_add y s) <-> x = y \/ In x s.
Proof.
  unfold set_add. destruct (mem y s) eqn:E.
  - apply mem_In in E. split; [now right | intros [-> | H]; assumption].
  - rewrite in_app_iff. simpl. intuition (subst; auto).
Qed.

Lemma In_remove_node_from (x y : node) (s : list node) :
  In x (remove_node_from y s) <-> x <> y /\ In x s.
Proof.
  unfold remove_node_from. rewrite filter_In, negb_true_iff, Nat.eqb_neq.
  split; intros [A B]; split; auto.
Qed.

(** ** The traversal helpers *)

Lemma edges_at_tail G u dir e : In e (edges_at G u dir) -> t_u e = u.
Proof.
  unfold edges_at. rewrite in_flat_map. intros [v [_ H]].
  apply in_map_iff in H. destruct H as [x [<- _]]. reflexivity.
Qed.

Lemma in_edges_at_head G u dir e : In e (in_edges_at G u dir) -> t_v e = u.
Proof.
  unfold in_edges_at. rewrite in_flat_map. intros [v [_ H]].
  apply in_map_iff in H. destruct H as [x [<- _]]. reflexivity.
Qed.

Lemma edges_at_dir G u dir e : In e (edges_at G u dir) -> t_dir e = dir.
Proof.
  unfold edges_at. rewrite in_flat_map. intros [v [_ H]].
  apply in_map_iff in H. destruct H as [x [<- _]]. reflexivity.
Qed.

Lemma in_edges_at_dir G u dir e : In e (in_edges_at G u dir) -> t_dir e = dir.
Proof.
  unfold in_edges_at. rewrite in_flat_map. intros [v [_ H]].
  apply in_map_iff in H. destruct H as [x [<- _]]. reflexivity.
Qed.

(** Every edge that [out_edges] lists for [u] leaves [u], as walked. *)
Lemma out_edges_tail G o u e : In e (out_edges G o u) -> tail_of G o e = u.
Proof.
  unfold out_edges, tail_of, tailhead.
  destruct (ignore_orientation G o) eqn:Ei.
  - rewrite in_app_iff. intros [H | H].
    + rewrite (edges_at_dir _ _ _ _ H). simpl. now apply edges_at_tail in H.
    + rewrite (in_edges_at_dir _ _ _ _ H). simpl. now apply in_edges_at_head in H.
  - destruct (reverse_orientation G o) eqn:Er; intros H.
    + rewrite (in_edges_at_dir _ _ _ _ H). simpl. now apply in_edges_at_head in H.
    + rewrite (edges_at_dir _ _ _ _ H). simpl. now apply edges_at_tail in H.
Qed.


Lemma joins_cases d u v e :
  joins d u v e = true ->
  (e_u e = u /\ e_v e = v) \/ (d = false /\ e_u e = v /\ e_v e = u).
Proof.
  unfold joins. rewrite orb_true_iff, !andb_true_iff, negb_true_iff, !Nat.eqb_eq.
  tauto.
Qed.

Lemma edges_at_id G u dir e :
  In e (edges_at G u dir) ->
  In (edge_id G e) (map (stored_id G) (edge_list G)).
Proof.
  unfold edges_at. rewrite in_flat_map. intros [v [_ H]].
  apply in_map_iff in H. destruct H as [x [<- Hx]].
  unfold edges_between in Hx. apply filter_In in Hx. destruct Hx as [Hx J].
  apply in_map_iff. exists x. split; [| assumption].
  unfold stored_id, edge_id. simpl.
  destruct (joins_cases _ _ _ _ J) as [[-> ->] | [D [-> ->]]].
  - reflexivity.
  - rewrite D. now rewrite Nat.min_comm, Nat.max_comm.
Qed.

Lemma in_edges_at_id G u dir e :
  In e (in_edges_at G u dir) ->
  In (edge_id G e) (map (stored_id G) (edge_list G)).
Proof.
  unfold in_edges_at. rewrite in_flat_map. intros [v [_ H]].
  apply in_map_iff in H. destruct H as [x [<- Hx]].
  unfold edges_between in Hx. apply filter_In in Hx. destruct Hx as [Hx J].
  apply in_map_iff. exists x. split; [| assumption].
  unfold stored_id, edge_id. simpl.
  destruct (joins_cases _ _ _ _ J) as [[-> ->] | [D [-> ->]]].
  - reflexivity.
  - rewrite D. now rewrite Nat.min_comm, Nat.max_comm.
Qed.

Lemma out_edges_id G o u e :
  In e (out_edges G o u) ->
  In (edge_id G e) (map (stored_id G) (edge_list G)).
Proof.
  unfold out_edges.
  destruct (ignore_orientation G o); [rewrite in_app_iff; intros [H | H] |].
  - eapply edges_at_id; eauto.
  - eapply in_edges_at_id; eauto.
  - destruct (reverse_orientation G o); intros H.
    + eapply in_edges_at_id; eauto.
    + eapply edges_at_id; eauto.
Qed.

(** ** The generator [edge_dfs] *)

Lemma okey_eqb_eq a b : okey_eqb a b = true <-> a = b.
Proof.
  destruct a, b; simpl; try (split; congruence).
  rewrite Nat.eqb_eq. split; congruence.
Qed.

Lemma id_eqb_eq a b : id_eqb a b = true <-> a = b.
Proof.
  destruct a as [[a1 a2] a3], b as [[b1 b2] b3]. unfold id_eqb. simpl.
  rewrite !andb_true_iff, !Nat.eqb_eq, okey_eqb_eq.
  split; [intros [[-> ->] ->]; reflexivity | intros E; inversion E; auto].
Qed.

Lemma id_mem_false a s : id_mem a s = false <-> ~ In a s.
Proof.
  unfold id_mem. split.
  - intros E H. assert (existsb (id_eqb a) s = true).
    { apply existsb_exists. exists a. split; [assumption | now apply id_eqb_eq]. }
    congruence.
  - intros H. destruct (existsb (id_eqb a) s) eqn:E; [| reflexivity].
    apply existsb_exists in E. destruct E as [b [Hb E]].
    apply id_eqb_eq in E. subst. contradiction.
Qed.

Lemma iter_get_set_same n l its : iter_get n (iter_set n l its) = Some l.
Proof.
  induction its as [| [m l0] r IH]; simpl.
  - now rewrite Nat.eqb_refl.
  - destruct (Nat.eqb n m) eqn:E; simpl; rewrite E; auto.
Qed.

Lemma iter_get_set_other n m l its :
  n <> m -> iter_get n (iter_set m l its) = iter_get n its.
Proof.
  intros D. induction its as [| [k l0] r IH]; simpl.
  - apply Nat.eqb_neq in D. now rewrite D.
  - destruct (Nat.eqb m k) eqn:E; simpl.
    + apply Nat.eqb_eq in E. subst k. apply Nat.eqb_neq in D. now rewrite D.
    + destruct (Nat.eqb n k); auto.
Qed.

Lemma advance_spec G vedges it e it' :
  advance G vedges it = Some (e, it') ->
  In e it /\ incl it' it /\ ~ In (edge_id G e) vedges.
Proof.
  induction it as [| x r IH]; simpl; [discriminate |].
  destruct (id_mem (edge_id G x) vedges) eqn:E.
  - intros H. destruct (IH H) as [A [B C]].
    repeat split; auto. intros y Hy. right. auto.
  - intros H. inversion H; subst. apply id_mem_false in E.
    repeat split; auto. intros y Hy. now right.
Qed.

Section Generator.
Variable G : Graph.
Variable o : orientation.

(** What is left of an iterator of node [n] are edges that leave [n] and
    are edges of the graph. *)


Lemma its_ok_set n l its :
  its_ok G o its -> (forall e, In e l -> edge_ok G o n e) -> its_ok G o (iter_set n l its).
Proof.
  intros H Hl m l' Hm e He. destruct (Nat.eq_dec m n) as [-> | D].
  - rewrite iter_get_set_same in Hm. inversion Hm; subst. auto.
  - rewrite iter_get_set_other in Hm by assumption. eapply H; eauto.
Qed.

Lemma out_edges_ok n e : In e (out_edges G o n) -> edge_ok G o n e.
Proof.
  intros H. split; [now apply out_edges_tail | eapply out_edges_id; eauto].
Qed.

(** A [next()] pops exhausted nodes off the stack, then yields an edge
    that leaves the node on top and was not visited, and pushes its head. *)
Lemma dfs_next_spec stack : forall vnodes vedges its e st',
  its_ok G o its ->
  dfs_next G o stack vnodes vedges its = Some (e, st') ->
  exists popped cur rest,
    stack = popped ++ cur :: rest /\
    d_stack st' = head_of G o e :: cur :: rest /\
    tail_of G o e = cur /\
    its_ok G o (d_iters st') /\
    d_vedges st' = edge_id G e :: vedges /\
    ~ In (edge_id G e) vedges /\
    In (edge_id G e) (map (stored_id G) (edge_list G)).
Proof.
  induction stack as [| cur rest IH]; intros vnodes vedges its e st' Hits H;
    simpl in H; [discriminate |].
  set (it := if mem cur vnodes
             then match iter_get cur its with Some l => l | None => [] end
             else out_edges G o cur) in H.
  assert (Hit : forall x, In x it -> edge_ok G o cur x).
  { subst it. destruct (mem cur vnodes).
    - destruct (iter_get cur its) eqn:E; [| intros x []].
      intros x Hx. eapply Hits; eauto.
    - apply out_edges_ok. }
  destruct (advance G vedges it) as [[e1 it1] |] eqn:A.
  - inversion H; subst. clear H.
    apply advance_spec in A. destruct A as [A1 [A2 A3]].
    destruct (Hit _ A1) as [T I].
    exists [], cur, rest. simpl.
    split; [reflexivity |]. split; [reflexivity |]. split; [assumption |].
    split; [apply its_ok_set; auto |].
    split; [reflexivity |]. split; assumption.
  - assert (Hits' : its_ok G o (iter_set cur [] its)).
    { apply its_ok_set; auto. intros x []. }
    apply IH in H; [| exact Hits'].
    destruct H as [popped [c [r [E1 [E2 [E3 [E4 [E5 [E6 E7]]]]]]]]].
    exists (cur :: popped), c, r. simpl. rewrite E1.
    split; [reflexivity |]. split; [assumption |]. split; [assumption |].
    split; [assumption |]. split; [assumption |]. split; assumption.
Qed.

End Generator.

(** ** The search of [find_cycle] from one source *)

Section Search.
Variable G : Graph.
Variable o : orientation.
Variable explored : list node.
Variable start : node.



Lemma chained_tails edges :
  chained G o start edges -> map (tail_of G o) edges = tl (heads G o edges ++ [start]).
Proof.
  induction edges as [| e rest IH]; simpl; [reflexivity |].
  intros [T C]. rewrite T, (IH C). destruct rest; reflexivity.
Qed.

Lemma reconcile_spec edges : forall active popped cur rest,
  heads G o edges ++ [start] = popped ++ cur :: rest ->
  popped <> [] ->
  NoDup (heads G o edges ++ [start]) ->
  (forall x, In x active <-> In x (heads G o edges ++ [start])) ->
  chained G o start edges ->
  exists edges1 active1,
    reconcile G o cur edges active = Some (edges1, active1) /\
    heads G o edges1 ++ [start] = cur :: rest /\
    (forall x, In x active1 <-> In x (cur :: rest)) /\
    chained G o start edges1.
Proof.
  induction edges as [| e r IH]; intros active popped cur rest E NE ND A C.
  - destruct popped as [| p [| q popped]]; try contradiction;
      simpl in E; inversion E.
  - destruct popped as [| p popped']; [contradiction |].
    simpl in E. inversion E as [[Eh Et]]. clear E.
    simpl in ND. inversion ND as [| ? ? Hnotin ND']; subst.
    simpl. destruct C as [Te C].
    assert (Hact : mem (head_of G o e) active = true).
    { apply mem_In. apply A. now left. }
    rewrite Hact.
    assert (A' : forall x, In x (remove_node_from (head_of G o e) active)
                           <-> In x (heads G o r ++ [start])).
    { intros x. rewrite In_remove_node_from, A. simpl. split.
      - intros [D [F | F]]; [congruence | assumption].
      - intros F. split; [intros ->; contradiction | now right]. }
    destruct r as [| last r'].
    + simpl in Et. destruct popped' as [| q popped'].
      * simpl in Et. inversion Et as [[Ec Er]].
        exists [], [cur]. simpl. rewrite <- Ec.
        split; [reflexivity |]. split; [reflexivity |]. split; [tauto | exact Logic.I].
      * simpl in Et. inversion Et. destruct popped'; discriminate.
    + destruct (Nat.eqb cur (head_of G o last)) eqn:Q.
      * apply Nat.eqb_eq in Q.
        destruct popped' as [| q popped'].
        -- exists (last :: r'), (remove_node_from (head_of G o e) active).
           split; [reflexivity |]. split; [exact Et |]. split; [| exact C].
           intros x. rewrite A', Et. simpl. tauto.
        -- exfalso. simpl in Et. inversion Et as [[Eq Et']]. clear Et.
           simpl in ND'. inversion ND' as [| ? ? Hn _]; subst.
           apply Hn. rewrite Et'. rewrite in_app_iff. right. left. auto.
      * apply Nat.eqb_neq in Q.
        assert (NE' : popped' <> []).
        { intros ->. simpl in Et. inversion Et. congruence. }
        exact (IH _ _ _ _ Et NE' ND' A' C).
Qed.



Lemma inv_start : ~ In start explored -> inv G o explored start (dfs_start start) [] [start] None.
Proof.
  intros H. constructor; simpl; auto.
  - constructor; [intros [] | constructor].
  - tauto.
  - intros n l E. discriminate.
  - split; [constructor | intros x []].
  - intros x [<- | []]. assumption.
Qed.

Lemma vedges_bound st :
  NoDup (d_vedges st) -> incl (d_vedges st) (ids G) ->
  length (d_vedges st) <= length (edge_list G).
Proof.
  intros N I. unfold ids in I.
  rewrite <- (length_map (stored_id G) (edge_list G)).
  now apply NoDup_incl_length.
Qed.


Lemma search_spec fuel : forall st edges seen active prev read r read',
  inv G o explored start st edges active prev ->
  length (edge_list G) < fuel + length (d_vedges st) ->
  (forall e, In e read -> ~ In (tail_of G o e) explored) ->
  search fuel G o explored st edges seen active prev read = (r, read') ->
  match r with
  | Found edges2 final _ => closes G o start edges2 final
  | RemoveFailed | OutOfFuel => False
  | Explored _ | Exhausted _ => True
  end /\
  (forall e, In e read' -> ~ In (tail_of G o e) explored).
Proof.
  induction fuel as [| fuel IH];
    intros st edges seen active prev read r read' I F R H.
  - exfalso. destruct (inv_vedges I) as [N C].
    pose proof (@vedges_bound st N C). simpl in F. lia.
  - simpl in H. unfold edge_dfs_next in H.
    destruct (dfs_next G o (d_stack st) (d_vnodes st) (d_vedges st) (d_iters st))
      as [[edge st'] |] eqn:D.
    2:{ inversion H; subst. split; [exact Logic.I | assumption]. }
    pose proof D as D'. apply dfs_next_spec in D'; [| exact (inv_iters I)].
    destruct D' as [popped [cur [rest [S1 [S2 [S3 [S4 [S5 [S6 S7]]]]]]]]].
    assert (Hcur : ~ In cur explored).
    { apply (inv_fresh I). rewrite S1, in_app_iff. right. now left. }
    assert (R' : forall e, In e (edge :: read) -> ~ In (tail_of G o e) explored).
    { intros e [<- | He]; [now rewrite S3 | auto]. }
    rewrite S3 in H.
    assert (Hrec : exists edges1 active1,
      (if match prev with
          | Some p => negb (Nat.eqb cur p)
          | None => false
          end
       then reconcile G o cur edges active else Some (edges, active))
      = Some (edges1, active1) /\
      heads G o edges1 ++ [start] = cur :: rest /\
      (forall x, In x active1 <-> In x (cur :: rest)) /\
      chained G o start edges1).
    { pose proof (inv_stack I) as St. rewrite S1 in St.
      pose proof (inv_nodup I) as Nd. rewrite (inv_stack I) in Nd.
      assert (Ac : forall x, In x active <-> In x (heads G o edges ++ [start])).
      { intros x. rewrite (inv_active I), (inv_stack I). tauto. }
      rewrite (inv_prev I).
      destruct popped as [| p popped].
      - (* the edge continues the path *)
        simpl in St. destruct edges as [| e0 edges0].
        + exists [], active. simpl in *. inversion St; subst.
          repeat split; auto; apply Ac.
        + simpl in St. inversion St as [[Eh Et]].
          rewrite Nat.eqb_refl. simpl.
          exists (e0 :: edges0), active.
          split; [reflexivity |]. split; [simpl; congruence |].
          split; [| exact (inv_chain I)].
          intros x. rewrite Ac. simpl. tauto.
      - (* the generator backtracked *)
        destruct edges as [| e0 edges0].
        + simpl in St. inversion St. destruct popped; discriminate.
        + assert (Q : Nat.eqb cur (head_of G o e0) = false).
          { apply Nat.eqb_neq. intros Q. pose proof St as St2.
            simpl in St2. injection St2 as Eh Et.
            simpl in Nd. apply NoDup_cons_iff in Nd. destruct Nd as [Hn _].
            apply Hn. rewrite <- Et, in_app_iff. right. left. exact Q. }
          rewrite Q. simpl.
          symmetry in St.
          destruct (@reconcile_spec (e0 :: edges0) active (p :: popped) cur rest)
            as [edges1 [active1 [Q1 [Q2 [Q3 Q4]]]]]; auto.
          * discriminate.
          * exact (inv_chain I).
          * exists edges1, active1. auto. }
    destruct Hrec as [edges1 [active1 [Q1 [Q2 [Q3 Q4]]]]].
    rewrite Q1 in H.
    assert (Nd1 : NoDup (cur :: rest)).
    { pose proof (inv_nodup I) as Nd. rewrite S1 in Nd.
      now apply NoDup_app_remove_l in Nd. }
    assert (C2 : chained G o start (edge :: edges1)).
    { simpl. split; [| assumption]. rewrite S3.
      destruct edges1; simpl in Q2; inversion Q2; reflexivity. }
    destruct (mem (head_of G o edge) active1) eqn:M.
    + inversion H; subst. split; [| assumption].
      split; [exact C2 |]. split; [reflexivity |].
      rewrite Q2. split; [| assumption].
      apply Q3. now apply mem_In.
    + destruct (mem (head_of G o edge) explored) eqn:X.
      * inversion H; subst. split; [exact Logic.I | assumption].
      * apply mem_false_In in M. apply mem_false_In in X.
        apply IH in H; auto.
        -- constructor.
           ++ rewrite S2. simpl. now rewrite Q2.
           ++ rewrite S2. constructor; [| assumption].
              intros Hin. apply M. now apply Q3.
           ++ intros x. rewrite In_set_add, S2, Q3. simpl. intuition.
           ++ reflexivity.
           ++ exact C2.
           ++ exact S4.
           ++ rewrite S5. destruct (inv_vedges I) as [N C]. split.
              ** constructor; assumption.
              ** intros x [<- | Hx]; [exact S7 | now apply C].
           ++ rewrite S2. intros x [<- | Hx]; [assumption |].
              apply (inv_fresh I). rewrite S1, in_app_iff. now right.
        -- rewrite S5. simpl. lia.
Qed.

End Search.

(** ** The loop over the sources and the trimming *)

Section FindCycle.
Variable G : Graph.
Variable o : orientation.

Lemma sources_loop_cons start_node rest explored log :
  sources_loop G o (start_node :: rest) explored log =
  if mem start_node explored then sources_loop G o rest explored log
  else
    let '(r, read) := search (search_fuel G) G o explored
                             (dfs_start start_node) [] [start_node]
                             [start_node] None [] in
    let entry := mkLog start_node explored (rev read) in
    match r with
    | Found edges final_node seen =>
        mkLocals explored (rev edges) (Some final_node) true false
                 (log ++ [entry seen true])
    | Explored seen | Exhausted seen =>
        sources_loop G o rest (seen ++ explored)
                     (log ++ [entry seen false])
    | RemoveFailed | OutOfFuel =>
        mkLocals explored [] None true true (log ++ [entry [] false])
    end.
Proof. reflexivity. Qed.

Lemma sources_loop_spec starts : forall explored log,
  exists new,
    l_log (sources_loop G o starts explored log) = log ++ new /\
    threaded explored new /\
    l_explored (sources_loop G o starts explored log)
      = fold_left merged new explored /\
    Forall (searched G o) new /\
    l_error (sources_loop G o starts explored log) = false /\
    (if l_broke (sources_loop G o starts explored log)
     then exists start edges2 final,
            l_cycle (sources_loop G o starts explored log) = rev edges2 /\
            l_final_node (sources_loop G o starts explored log) = Some final /\
            closes G o start edges2 final
     else l_cycle (sources_loop G o starts explored log) = [] /\
          Forall (fun en => s_found en = false) new).
Proof.
  induction starts as [| s rest IH]; intros explored log.
  - exists []. simpl. rewrite app_nil_r.
    split; [reflexivity |]. split; [exact Logic.I |]. split; [reflexivity |].
    split; [constructor |]. split; [reflexivity |].
    split; [reflexivity | constructor].
  - rewrite sources_loop_cons. destruct (mem s explored) eqn:M; [apply IH |].
    apply mem_false_In in M.
    destruct (search (search_fuel G) G o explored (dfs_start s) [] [s] [s]
                     None []) as [r read] eqn:S.
    pose proof S as S'.
    apply search_spec with (start := s) in S';
      [ | apply inv_start; exact M | simpl; unfold search_fuel; lia
        | intros e [] ].
    destruct S' as [Hr Hread].
    assert (Hs : forall seen b, searched G o (mkLog s explored (rev read) seen b)).
    { intros seen b. split; simpl; [exact M |].
      intros e He. apply Hread. now apply in_rev. }
    destruct r as [edges final seen | seen | seen | |]; try contradiction.
    + exists [mkLog s explored (rev read) seen true]. simpl.
      split; [reflexivity |]. split; [split; [reflexivity | exact Logic.I] |].
      split; [reflexivity |]. split; [constructor; [apply Hs | constructor] |].
      split; [reflexivity |].
      exists s, edges, final. auto.
    + destruct (IH (seen ++ explored)
                   (log ++ [mkLog s explored (rev read) seen false]))
        as [new [H1 [H2 [H3 [H4 [H5 H6]]]]]].
      exists (mkLog s explored (rev read) seen false :: new).
      rewrite <- app_assoc in H1. simpl in H1.
      split; [exact H1 |]. split; [split; [reflexivity | exact H2] |].
      split; [exact H3 |]. split; [constructor; [apply Hs | exact H4] |].
      split; [exact H5 |].
      destruct (l_broke _); [exact H6 |].
      destruct H6 as [H6 H7]. split; [exact H6 | constructor; auto].
    + destruct (IH (seen ++ explored)
                   (log ++ [mkLog s explored (rev read) seen false]))
        as [new [H1 [H2 [H3 [H4 [H5 H6]]]]]].
      exists (mkLog s explored (rev read) seen false :: new).
      rewrite <- app_assoc in H1. simpl in H1.
      split; [exact H1 |]. split; [split; [reflexivity | exact H2] |].
      split; [exact H3 |]. split; [constructor; [apply Hs | exact H4] |].
      split; [exact H5 |].
      destruct (l_broke _); [exact H6 |].
      destruct H6 as [H6 H7]. split; [exact H6 | constructor; auto].
Qed.

Lemma trim_spec final : forall cycle,
  In final (map (tail_of G o) cycle) ->
  exists pre first rest,
    cycle = pre ++ first :: rest /\
    trim G o final cycle = first :: rest /\
    tail_of G o first = final /\
    (forall e, In e pre -> tail_of G o e <> final).
Proof.
  induction cycle as [| e rest IH]; simpl; [intros [] |].
  intros H. destruct (Nat.eqb (tail_of G o e) final) eqn:Q.
  - apply Nat.eqb_eq in Q. exists [], e, rest.
    split; [reflexivity |]. split; [reflexivity |]. split; [exact Q |].
    intros x [].
  - apply Nat.eqb_neq in Q. destruct H as [H | H]; [contradiction |].
    destruct (IH H) as [pre [first [rest' [E [T [F P]]]]]].
    exists (e :: pre), first, rest'.
    split; [simpl; now rewrite E |].
    split; [destruct rest; [destruct pre; discriminate | exact T] |].
    split; [exact F |].
    intros x [<- | Hx]; [exact Q | now apply P].
Qed.

Lemma linked_snoc e : forall l d,
  linked G o l ->
  (l <> [] -> head_of G o (last l d) = tail_of G o e) ->
  linked G o (l ++ [e]).
Proof.
  induction l as [| a l IH]; intros d L H; simpl; [auto |].
  destruct L as [La L]. destruct l as [| b l].
  - simpl. split; [| auto]. apply (H ltac:(discriminate)).
  - split; [exact La |]. apply (IH d L). intros _. apply H. discriminate.
Qed.

Lemma chained_linked start : forall edges,
  chained G o start edges -> linked G o (rev edges).
Proof.
  induction edges as [| e rest IH]; simpl; [auto |].
  intros [T C]. apply linked_snoc with (d := e); [auto |].
  intros N. destruct rest as [| e' rest']; [exfalso; apply N; reflexivity |].
  simpl. rewrite last_last. symmetry. exact T.
Qed.

Lemma linked_app_r c : forall pre, linked G o (pre ++ c) -> linked G o c.
Proof.
  induction pre as [| a pre IH]; simpl; [auto |]. intros [_ L]. auto.
Qed.

Lemma last_app_cons (A : Type) (x d : A) (l : list A) : forall pre,
  last (pre ++ x :: l) d = last (x :: l) x.
Proof.
  assert (B : forall (l : list A) x d d', last (x :: l) d = last (x :: l) d').
  { induction l0 as [| y l0 IHl]; intros x0 d0 d'; [reflexivity |].
    change (last (y :: l0) d0 = last (y :: l0) d'). apply IHl. }
  induction pre as [| a pre IH]; [apply B |].
  simpl. destruct (pre ++ x :: l) eqn:E; [destruct pre; discriminate |].
  exact IH.
Qed.

End FindCycle.

(** ** Statements about [find_cycle] *)

(** The model of [find_cycle] never runs out of fuel, no [remove] fails,
    and a search left by [break] has set [final_node]. *)
Lemma find_cycle_no_crash G source o : find_cycle G source o <> Crash.
Proof.
  unfold find_cycle, find_cycle_locals.
  destruct (sources_loop_spec G o (nbunch_iter G source) [] [])
    as [new [_ [_ [_ [_ [H5 H6]]]]]].
  rewrite H5. destruct (l_broke _); [| discriminate].
  destruct H6 as [start [edges2 [final [_ [Hf _]]]]]. rewrite Hf. discriminate.
Qed.

Example find_cycle_two_cycle :
  find_cycle (of_pairs true false [(0, 1); (1, 0)]) None Original
  = Cycle [step 0 1; step 1 0].
Proof. reflexivity. Qed.

Example find_cycle_dag_original :
  find_cycle (of_pairs true false [(0, 1); (0, 2); (1, 2)]) None Original
  = NetworkXNoCycle.
Proof. reflexivity. Qed.

Example find_cycle_dag_ignore :
  find_cycle (of_pairs true false [(0, 1); (0, 2); (1, 2)]) None Ignore
  = Cycle [mkT 0 1 None (Some FORWARD); mkT 1 2 None (Some FORWARD);
           mkT 0 2 None (Some REVERSE)].
Proof. reflexivity. Qed.

(** C6: when [find_cycle] returns a cycle [c], the edge list the search
    built is [pre ++ c] for an approach path [pre]; [c] is not empty, its
    first edge leaves the closing node [final] and its last edge enters
    it, consecutive edges of [c] are linked, no two edges of the whole
    list leave the same node (so [final] is left once, by the first edge
    of [c]), and no edge of [pre] leaves [final].  For the directed graph
    with edges (0,1),(1,0) the result is [(0,1),(1,0)]. *)
Theorem find_cycle_trims :
  (forall G source o c,
     find_cycle G source o = Cycle c ->
     exists final pre first rest,
       l_final_node (find_cycle_locals G source o) = Some final /\
       l_cycle (find_cycle_locals G source o) = pre ++ c /\
       c = first :: rest /\
       tail_of G o first = final /\
       head_of G o (last c first) = final /\
       linked G o c /\
       NoDup (map (tail_of G o) (pre ++ c)) /\
       (forall e, In e pre -> tail_of G o e <> final)) /\
  find_cycle (of_pairs true false [(0, 1); (1, 0)]) None Original
  = Cycle [mkT 0 1 None None; mkT 1 0 None None].
Proof.
  split; [| reflexivity].
  intros G source o c H. unfold find_cycle in H. unfold find_cycle_locals in *.
  destruct (sources_loop_spec G o (nbunch_iter G source) [] [])
    as [new [_ [_ [_ [_ [H5 H6]]]]]].
  rewrite H5 in H. destruct (l_broke _); [| discriminate].
  destruct H6 as [start [edges2 [final [Hc [Hf Hcl]]]]].
  rewrite Hf, Hc in H. rewrite Hf, Hc. injection H as H.
  destruct Hcl as [Ch Cl].
  destruct edges2 as [| e edges1]; [contradiction |].
  destruct Cl as [He [Hin Hnd]].
  assert (Tails : map (tail_of G o) (rev (e :: edges1))
                  = rev (heads G o edges1 ++ [start])).
  { rewrite map_rev. f_equal. rewrite (@chained_tails G o start _ Ch). reflexivity. }
  destruct (@trim_spec G o final (rev (e :: edges1)))
    as [pre [first [rest [E [T [F P]]]]]].
  { rewrite Tails. apply -> in_rev. exact Hin. }
  rewrite T in H. subst c.
  exists final, pre, first, rest.
  split; [reflexivity |]. split; [exact E |]. split; [reflexivity |].
  split; [exact F |].
  split.
  { rewrite <- (last_app_cons first first rest pre), <- E.
    simpl. rewrite last_last. exact He. }
  split.
  { apply linked_app_r with (pre := pre). rewrite <- E.
    apply chained_linked with (start := start). exact Ch. }
  split; [| exact P].
  rewrite <- E, Tails. apply NoDup_rev. exact Hnd.
Qed.

(** A path into a triangle: the edge (0,1) of the approach is trimmed. *)
Lemma find_cycle_trims_witness :
  find_cycle (of_pairs true false [(0, 1); (1, 2); (2, 3); (3, 1)]) None
             Original = Cycle [step 1 2; step 2 3; step 3 1] /\
  exists final pre first rest,
    l_final_node (find_cycle_locals
                    (of_pairs true false [(0, 1); (1, 2); (2, 3); (3, 1)])
                    None Original) = Some final /\
    l_cycle (find_cycle_locals
               (of_pairs true false [(0, 1); (1, 2); (2, 3); (3, 1)])
               None Original) = pre ++ [step 1 2; step 2 3; step 3 1] /\
    [step 1 2; step 2 3; step 3 1] = first :: rest /\
    tail_of (of_pairs true false [(0, 1); (1, 2); (2, 3); (3, 1)]) Original
            first = final /\
    head_of (of_pairs true false [(0, 1); (1, 2); (2, 3); (3, 1)]) Original
            (last [step 1 2; step 2 3; step 3 1] first) = final /\
    linked (of_pairs true false [(0, 1); (1, 2); (2, 3); (3, 1)]) Original
           [step 1 2; step 2 3; step 3 1] /\
    NoDup (map (tail_of (of_pairs true false [(0, 1); (1, 2); (2, 3); (3, 1)])
                        Original)
               (pre ++ [step 1 2; step 2 3; step 3 1])) /\
    (forall e, In e pre ->
       tail_of (of_pairs true false [(0, 1); (1, 2); (2, 3); (3, 1)]) Original
               e <> final).
Proof.
  split; [reflexivity |].
  apply (proj1 find_cycle_trims
           (of_pairs true false [(0, 1); (1, 2); (2, 3); (3, 1)]) None Original
           [step 1 2; step 2 3; step 3 1]).
  reflexivity.
Defined.

(** C3: on the directed graph with edges (1,0),(1,2),(2,1) and the
    sources 0, 1, 2 in this order, [find_cycle] raises [NetworkXNoCycle]
    although 1 -> 2 -> 1 is a cycle through the source 1: the search from
    1 stops at its first edge (1,0), whose head is explored, and the search
    from 2 stops at (2,1). *)
Theorem find_cycle_misses_cycle :
  find_cycle (of_pairs true false [(1, 0); (1, 2); (2, 1)])
             (Some [0; 1; 2]) Original = NetworkXNoCycle /\
  In 1 (nbunch_iter (of_pairs true false [(1, 0); (1, 2); (2, 1)])
                    (Some [0; 1; 2])) /\
  has_edge (of_pairs true false [(1, 0); (1, 2); (2, 1)]) 1 2 = true /\
  has_edge (of_pairs true false [(1, 0); (1, 2); (2, 1)]) 2 1 = true /\
  map s_read (l_log (find_cycle_locals
                       (of_pairs true false [(1, 0); (1, 2); (2, 1)])
                       (Some [0; 1; 2]) Original))
  = [[]; [step 1 0]; [step 2 1]].
Proof.
  split; [reflexivity |]. split; [simpl; auto |].
  split; [reflexivity |]. split; reflexivity.
Qed.

(** C4, as the code has it: every search starts from the explored set the
    one before it left, which is its seen set added to the explored set
    when it found no cycle and the explored set unchanged when it found
    one; the explored set at the end is the result of these merges; a
    search that found a cycle ends the loop by [break]; and no search
    starts at an explored node or reads an edge that leaves one. *)
Theorem explored_merge G source o :
  threaded [] (l_log (find_cycle_locals G source o)) /\
  l_explored (find_cycle_locals G source o)
    = fold_left merged (l_log (find_cycle_locals G source o)) [] /\
  (l_broke (find_cycle_locals G source o) = false ->
   Forall (fun en => s_found en = false)
          (l_log (find_cycle_locals G source o))) /\
  Forall (searched G o) (l_log (find_cycle_locals G source o)).
Proof.
  unfold find_cycle_locals.
  destruct (sources_loop_spec G o (nbunch_iter G source) [] [])
    as [new [H1 [H2 [H3 [H4 [_ H6]]]]]].
  simpl in H1. rewrite H1.
  split; [exact H2 |]. split; [exact H3 |]. split; [| exact H4].
  intros B. rewrite B in H6. apply H6.
Qed.

(** C4 as stated fails on the directed graph with edges (0,1),(1,0): the
    only search finds a cycle, has seen 0 and 1, and the explored set is
    left empty. *)
Lemma explored_not_merged_when_found :
  l_log (find_cycle_locals (of_pairs true false [(0, 1); (1, 0)]) None
                           Original)
  = [mkLog 0 [] [step 0 1; step 1 0] [0; 1] true] /\
  l_explored (find_cycle_locals (of_pairs true false [(0, 1); (1, 0)]) None
                                Original) = [].
Proof. split; reflexivity. Qed.

(** ** The kind guards *)

(** C7: [cycle_basis] on a directed graph, and [simple_cycles] and
    [recursive_simple_cycles] on an undirected graph, raise
    [NetworkXNotImplemented]; the guard answers before the body is run, so
    the answer is the same whatever the body would do. *)
Theorem guards_raise_before_body :
  (forall pick root m ns es,
     cycle_basis pick root (mkGraph true m ns es) = NetworkXNotImplemented) /\
  (forall pick root m ns es,
     cycle_basis_trace pick root (mkGraph true m ns es)
     = NetworkXNotImplemented) /\
  (forall pick m ns es,
     simple_cycles pick (mkGraph false m ns es) = NetworkXNotImplemented) /\
  (forall m ns es,
     recursive_simple_cycles (mkGraph false m ns es)
     = NetworkXNotImplemented) /\
  (forall (A : Type) refused (body : Graph -> outcome A) G,
     refused G = true ->
     not_implemented_for refused body G = NetworkXNotImplemented).
Proof.
  split; [reflexivity |]. split; [reflexivity |]. split; [reflexivity |].
  split; [reflexivity |].
  intros A refused body G H. unfold not_implemented_for. now rewrite H.
Qed.

(** ** [cycle_basis] *)


Lemma components_loop_S f pick G gnodes root cycles roots :
  components_loop (S f) pick G gnodes root cycles roots =
  match gnodes with
  | [] => Returned (cycles, roots)
  | _ =>
      let '(r, gnodes1) :=
        match root with
        | Some r => (r, gnodes)
        | None => match set_pop pick gnodes with
                  | Some (r, g') => (r, g')
                  | None => (0, gnodes)
                  end
        end in
      match walk_loop (S (S (length (node_list G)))) G
              (mkWalk [r] [(r, r)] [(r, [])] cycles) with
      | Returned w =>
          components_loop f pick G
            (filter (fun n => negb (mem n (keys (w_pred w)))) gnodes1)
            None (w_cycles w) (roots ++ [(r, gnodes)])
      | NetworkXNotImplemented => NetworkXNotImplemented
      | KeyError => KeyError
      | Diverged => Diverged
      end
  end.
Proof. reflexivity. Qed.




Example cycle_basis_docstring :
  cycle_basis pick_first (Some 0)
    (of_pairs false false
       [(0, 1); (1, 2); (2, 3); (3, 0); (0, 3); (3, 4); (4, 5); (5, 0)])
  = Returned [[3; 4; 5; 0]; [1; 2; 3; 0]].
Proof. reflexivity. Qed.

(** C2: on the triangle 0, 1, 2 with every edge doubled (six edges, three
    nodes, one component, three pairs of parallel edges) [cycle_basis]
    returns three cycles whatever node is popped as the root: the doubled
    edge between 1 and 2, whose two occurrences are both chords, gives no
    cycle of two nodes. *)
Theorem cycle_basis_doubled_triangle pick :
  exists c,
    cycle_basis pick None
      (of_pairs false true [(0, 1); (0, 1); (1, 2); (1, 2); (0, 2); (0, 2)])
    = Returned [[0; 1]; [0; 2]; c] /\
    length c = 3 /\
    length (edge_list
      (of_pairs false true [(0, 1); (0, 1); (1, 2); (1, 2); (0, 2); (0, 2)]))
    = 6 /\
    length (node_list
      (of_pairs false true [(0, 1); (0, 1); (1, 2); (1, 2); (0, 2); (0, 2)]))
    = 3.
Proof.
  unfold cycle_basis, cycle_basis_trace, not_implemented_for.
  cbn [directed_kind is_directed of_pairs].
  assert (E : forall G, G = of_pairs false true
                [(0, 1); (0, 1); (1, 2); (1, 2); (0, 2); (0, 2)] ->
              exists c,
                match
                  (if directed_kind G then NetworkXNotImplemented
                   else
                     components_loop
                       (S (length (node_list
                          (if is_multigraph G then convert false false G
                           else G))))
                       pick
                       (if is_multigraph G then convert false false G else G)
                       (set_of (node_list
                          (if is_multigraph G then convert false false G
                           else G)))
                       None
                       (if is_multigraph G then doubled_edge_cycles G else [])
                       [])
                with
                | Returned (cycles, _) => Returned cycles
                | NetworkXNotImplemented => NetworkXNotImplemented
                | KeyError => KeyError
                | Diverged => Diverged
                end = Returned [[0; 1]; [0; 2]; c] /\ length c = 3).
  { intros G ->.
    change (directed_kind _) with false.
    change (is_multigraph _) with true. cbv iota.
    replace (convert false false _) with
      (mkGraph false false [0; 1; 2]
               [mkEdge 0 1 0 0; mkEdge 0 2 0 0; mkEdge 1 2 0 0]
      ) by (vm_compute; reflexivity).
    replace (doubled_edge_cycles _) with [[0; 1]; [0; 2]]
      by (vm_compute; reflexivity).
    change (set_of (node_list _)) with [0; 1; 2].
    cbn [components_loop node_list length].
    unfold set_pop.
    destruct (mem (pick [0; 1; 2]) [0; 1; 2]) eqn:M.
    - apply mem_In in M.
      destruct M as [<- | [<- | [<- | []]]]; eexists; split;
        vm_compute; reflexivity.
    - eexists; split; vm_compute; reflexivity. }
  destruct (E _ eq_refl) as [c [H1 H2]]. exists c.
  split; [exact H1 |]. split; [exact H2 |]. split; reflexivity.
Qed.

(** ** [chords] *)

(** C5: on the directed multigraph with the nodes 0, 1 and the one edge
    (1,0), [chords] returns a tree with no node and no edge, and the edge
    stays a chord; on the undirected multigraph with the nodes 0, 1, 2 and
    the one edge (0,1), the tree returned lacks the node 2. *)
Theorem chords_tree_not_spanning :
  chords (add_edge (add_nodes_from (empty_graph true true) [0; 1])
                   1 0 None 0)
  = (mkGraph true true [0; 1] [mkEdge 1 0 0 0], mkGraph false true [] []) /\
  chords (add_edge (add_nodes_from (empty_graph false true) [0; 1; 2])
                   0 1 None 0)
  = (mkGraph false true [0; 1; 2] [],
     mkGraph false true [0; 1] [mkEdge 0 1 0 0]).
Proof. split; reflexivity. Qed.

(** ** Circuits of the complete graphs *)

Lemma nodupb_NoDup l : nodupb l = true -> NoDup l.
Proof.
  induction l as [| x r IH]; simpl; [constructor |].
  intros H. apply andb_prop in H. destruct H as [H1 H2].
  constructor; [| auto].
  apply mem_false_In. now apply negb_true_iff.
Qed.

Lemma circuitb_spec G c : circuitb G c = true -> elementary_circuit G c.
Proof.
  destruct c as [| x r]; [discriminate |].
  unfold circuitb. intros H. apply andb_prop in H. destruct H as [H1 H2].
  split; [discriminate |]. split; [now apply nodupb_NoDup |].
  intros u v Hin. rewrite forallb_forall in H2. exact (H2 (u, v) Hin).
Qed.

Lemma increasing_above : forall r a,
  increasing (a :: r) = true -> Forall (fun b => (a < b)%N) r.
Proof.
  induction r as [| b r IH]; intros a H; [constructor |].
  simpl in H. apply andb_prop in H. destruct H as [H1 H2].
  apply N.ltb_lt in H1. constructor; [exact H1 |].
  apply IH in H2. eapply Forall_impl; [| exact H2].
  intros c Hc. simpl in Hc. lia.
Qed.

Lemma increasing_NoDup : forall l, increasing l = true -> NoDup l.
Proof.
  induction l as [| a r IH]; intros H; [constructor |].
  constructor.
  - intros Hin. apply increasing_above in H.
    rewrite Forall_forall in H. apply H in Hin. lia.
  - apply IH. simpl in H. destruct r; [reflexivity |].
    apply andb_prop in H. apply H.
Qed.

Lemma In_skipn (A : Type) : forall k (l : list A) x, In x (skipn k l) -> In x l.
Proof.
  induction k as [| k IH]; intros l x H; [exact H |].
  destruct l as [| y l]; [exact H |]. right. now apply IH.
Qed.

(** Two circuits that start at their smallest node and are rotations of
    each other are the same list. *)
Lemma rotation_min_first a b :
  min_first a = true -> min_first b = true -> rotation a b -> a = b.
Proof.
  intros Ha Hb [k E]. destruct a as [| s r]; [discriminate |].
  destruct k as [| k]; [simpl in E; now rewrite app_nil_r in E |].
  simpl in E. destruct (skipn k r) as [| x t] eqn:Sk.
  - simpl in E. subst b. f_equal. symmetry. apply firstn_all2.
    assert (L : length (skipn k r) = 0) by now rewrite Sk.
    rewrite length_skipn in L. lia.
  - exfalso. subst b. simpl in Ha, Hb.
    rewrite forallb_forall in Ha, Hb.
    assert (H1 : Nat.ltb s x = true).
    { assert (Hx : In x (skipn k r)) by (rewrite Sk; now left).
      apply Ha. apply In_skipn with (k := k). exact Hx. }
    assert (H2 : Nat.ltb x s = true).
    { apply Hb. rewrite in_app_iff. right. now left. }
    apply Nat.ltb_lt in H1. apply Nat.ltb_lt in H2. lia.
Qed.

Lemma distinct_up_to_rotation : forall l,
  NoDup l -> forallb min_first l = true ->
  ForallOrdPairs (fun a b => ~ rotation a b) l.
Proof.
  induction l as [| a r IH]; intros N M; [constructor |].
  simpl in M. apply andb_prop in M. destruct M as [Ma Mr].
  inversion N as [| ? ? Hn N']; subst.
  constructor; [| auto].
  rewrite Forall_forall. intros b Hb R.
  rewrite forallb_forall in Mr.
  apply Hn. rewrite (@rotation_min_first a b Ma (Mr b Hb) R). exact Hb.
Qed.

Lemma circuits_ok_spec G k l :
  circuits_ok G k l = true ->
  length l = k /\ Forall (elementary_circuit G) l /\
  ForallOrdPairs (fun a b => ~ rotation a b) l.
Proof.
  unfold circuits_ok. intros H.
  apply andb_prop in H. destruct H as [H H4].
  apply andb_prop in H. destruct H as [H H3].
  apply andb_prop in H. destruct H as [H1 H2].
  split; [now apply Nat.eqb_eq |]. split.
  - rewrite Forall_forall. rewrite forallb_forall in H2.
    intros c Hc. apply circuitb_spec. auto.
  - apply distinct_up_to_rotation; [| exact H3].
    apply NoDup_map_inv with (f := enc). now apply increasing_NoDup.
Qed.

Lemma enumerates_spec n k :
  enumerates n k = true ->
  exists l,
    simple_cycles pick_first (complete_graph n) = Returned l /\
    length l = k /\ Forall (elementary_circuit (complete_graph n)) l /\
    ForallOrdPairs (fun a b => ~ rotation a b) l.
Proof.
  unfold enumerates.
  destruct (simple_cycles pick_first (complete_graph n)) as [l | | |];
    try discriminate.
  intros H. exists l. split; [reflexivity |]. now apply circuits_ok_spec.
Qed.

(** C9: on the complete directed graphs with 2, 3, 4, 5, 6, 7 and 8 nodes
    [simple_cycles] returns 1, 5, 20, 84, 409, 2365 and 16064 lists, each
    of them an elementary circuit of the graph, and no two of them
    rotations of each other. *)
Theorem complete_graph_circuits :
  Forall (fun nk =>
            exists l,
              simple_cycles pick_first (complete_graph (fst nk)) = Returned l /\
              length l = snd nk /\
              Forall (elementary_circuit (complete_graph (fst nk))) l /\
              ForallOrdPairs (fun a b => ~ rotation a b) l)
         circuit_counts.
Proof.
  unfold circuit_counts.
  repeat (constructor; [apply enumerates_spec; vm_compute; reflexivity |]).
  constructor.
Qed.

(** ** No operation changes an object it did not create *)

Lemma keeps_ret n (A : Type) (a : A) : keeps n (ret a).
Proof. intros h H. simpl. auto. Qed.

Lemma keeps_lift n (A : Type) (r : outcome A) : keeps n (lift r).
Proof. intros h H. simpl. auto. Qed.

Lemma keeps_read n r : keeps n (read r).
Proof.
  intros h H. unfold read. destruct (nth_error h r); simpl; auto.
Qed.

Lemma keeps_bind n (A B : Type) (m : M A) (f : A -> M B) :
  keeps n m -> (forall a, keeps n (f a)) -> keeps n (bind m f).
Proof.
  intros Hm Hf h H. unfold bind. destruct (Hm h H) as [L E].
  destruct (m h) as [[a | | |] h']; simpl in *; auto.
  destruct (Hf a h' L) as [L' E']. split; [exact L' | congruence].
Qed.

(** What follows a constructor call knows that the reference is new. *)
Lemma keeps_new n (B : Type) g (f : ref -> M B) :
  (forall r, n <= r -> keeps n (f r)) -> keeps n (bind (new_object g) f).
Proof.
  intros Hf h H. unfold bind, new_object.
  assert (L : n <= length (h ++ [g])) by (rewrite length_app; simpl; lia).
  destruct (Hf (length h) H (h ++ [g]) L) as [L' E'].
  split; [exact L' |]. rewrite E'.
  rewrite firstn_app. replace (n - length h) with 0 by lia.
  simpl. now rewrite app_nil_r.
Qed.

Lemma keeps_new_last n g : keeps n (new_object g).
Proof.
  intros h H. unfold new_object. simpl. rewrite length_app. simpl.
  split; [lia |]. rewrite firstn_app. replace (n - length h) with 0 by lia.
  simpl. now rewrite app_nil_r.
Qed.

Lemma replace_at_length : forall h r g, length (replace_at r g h) = length h.
Proof.
  induction h as [| x t IH]; intros r g; [reflexivity |].
  destruct r; simpl; [reflexivity | now rewrite IH].
Qed.

Lemma replace_at_firstn : forall h r g n,
  n <= r -> firstn n (replace_at r g h) = firstn n h.
Proof.
  induction h as [| x t IH]; intros r g n H; [reflexivity |].
  destruct r as [| r].
  - replace n with 0 by lia. reflexivity.
  - destruct n as [| n]; [reflexivity |]. simpl. f_equal. apply IH. lia.
Qed.

(** A method call on an object created since changes nothing below. *)
Lemma keeps_mutate n r f : n <= r -> keeps n (mutate r f).
Proof.
  intros Hr h H. unfold mutate. destruct (nth_error h r); simpl; [| auto].
  rewrite replace_at_length. split; [exact H |].
  now apply replace_at_firstn.
Qed.

Lemma keeps_find_cycle n rG source o : keeps n (find_cycle_st rG source o).
Proof.
  unfold find_cycle_st. apply keeps_bind; [apply keeps_read |].
  intros G. apply keeps_ret.
Qed.

Lemma keeps_chords n rG : keeps n (chords_st rG).
Proof.
  unfold chords_st. apply keeps_bind; [apply keeps_read |]. intros G.
  apply keeps_bind.
  { destruct (is_directed G); [destruct (is_multigraph G) |].
    - apply keeps_new. intros rU _. apply keeps_bind; [apply keeps_read |].
      intros U. apply keeps_new_last.
    - apply keeps_new. intros rU _. apply keeps_bind; [apply keeps_read |].
      intros U. apply keeps_new. intros rF _.
      apply keeps_bind; [apply keeps_read |]. intros F. apply keeps_new_last.
    - apply keeps_new_last. }
  intros rT. apply keeps_new. intros rC HC.
  apply keeps_bind; [apply keeps_read |]. intros T.
  destruct (is_multigraph G).
  - apply keeps_new. intros rT' _. apply keeps_bind; [apply keeps_read |].
    intros T'. apply keeps_bind; [now apply keeps_mutate |].
    intros _. apply keeps_ret.
  - apply keeps_bind; [now apply keeps_mutate |]. intros _. apply keeps_ret.
Qed.

Lemma keeps_cycle_basis n pick root rG : keeps n (cycle_basis_st pick root rG).
Proof.
  unfold cycle_basis_st. apply keeps_bind; [apply keeps_read |]. intros G.
  destruct (directed_kind G); [apply keeps_lift |].
  apply keeps_bind.
  { destruct (is_multigraph G); [| apply keeps_ret].
    apply keeps_bind; [apply keeps_chords |]. intros ct.
    apply keeps_bind; [apply keeps_read |]. intros C.
    apply keeps_bind; [apply keeps_read |]. intros T.
    apply keeps_new. intros rG' _. apply keeps_ret. }
  intros p. apply keeps_bind; [apply keeps_read |]. intros G'.
  destruct (components_loop _ pick G' _ root (fst p) []) as [[c r] | | |];
    first [apply keeps_ret | apply keeps_lift].
Qed.

Lemma keeps_sccs_loop n pick rS : n <= rS ->
  forall fuel sccs out, keeps n (sccs_loop_st fuel pick rS sccs out).
Proof.
  intros HS. induction fuel as [| f IH]; intros sccs out; simpl;
    [apply keeps_lift |].
  destruct sccs as [| scc rest]; [apply keeps_ret |].
  destruct (set_pop pick scc) as [[startnode scc'] |]; [| apply keeps_lift].
  apply keeps_bind; [apply keeps_read |]. intros subG.
  destruct (finished _); [| apply keeps_lift].
  apply keeps_bind; [now apply keeps_mutate |]. intros _.
  apply keeps_bind; [apply keeps_read |]. intros subG'.
  apply keeps_new. intros rH _.
  apply keeps_bind; [apply keeps_read |]. intros H. apply IH.
Qed.

Lemma keeps_simple_cycles n pick rG : keeps n (simple_cycles_st pick rG).
Proof.
  unfold simple_cycles_st. apply keeps_bind; [apply keeps_read |]. intros G.
  destruct (undirected_kind G); [apply keeps_lift |].
  apply keeps_new. intros rS HS.
  apply keeps_bind; [apply keeps_read |]. intros subG.
  now apply keeps_sccs_loop.
Qed.

Lemma keeps_starts_loop n rG : forall ss st, keeps n (starts_loop_st rG ss st).
Proof.
  induction ss as [| s rest IH]; intros st; cbn [starts_loop_st];
    [apply keeps_ret |].
  apply keeps_bind; [apply keeps_read |]. intros G.
  apply keeps_new. intros rsub _.
  apply keeps_bind; [apply keeps_read |]. intros sub.
  destruct (min_component _ _) as [mincomp |]; [| apply keeps_lift].
  apply keeps_new. intros rcomp _.
  apply keeps_bind; [apply keeps_read |]. intros component.
  destruct (node_list component) as [| first others]; [apply IH |].
  cbv zeta. destruct (circuit _ _ _ _ _) as [[c st'] | | |];
    first [apply IH | apply keeps_lift].
Qed.

Lemma keeps_recursive_simple_cycles n rG :
  keeps n (recursive_simple_cycles_st rG).
Proof.
  unfold recursive_simple_cycles_st.
  apply keeps_bind; [apply keeps_read |]. intros G.
  destruct (undirected_kind G); [apply keeps_lift |]. apply keeps_starts_loop.
Qed.

(** What [keeps] gives at the size of the store. *)
Lemma keeps_all (A : Type) (m : M A) (h : store) :
  keeps (length h) m ->
  forall r, r < length h -> nth_error (snd (m h)) r = nth_error h r.
Proof.
  intros K r Hr. destruct (K h (le_n _)) as [_ E].
  rewrite firstn_all in E.
  rewrite <- (firstn_skipn (length h) (snd (m h))), E.
  now apply nth_error_app1.
Qed.

(** C8: whatever the store [h] and the reference [rG] of the caller's
    graph, after [cycle_basis], [simple_cycles], [recursive_simple_cycles],
    [chords] or [find_cycle] every object of [h], the caller's graph among
    them, is what it was: nodes, edges, keys and attributes.  This holds
    whether the call returns or raises. *)
Theorem operations_keep_the_callers_graph (h : store) (rG : ref) :
  (forall pick root r, r < length h ->
     nth_error (snd (cycle_basis_st pick root rG h)) r = nth_error h r) /\
  (forall pick r, r < length h ->
     nth_error (snd (simple_cycles_st pick rG h)) r = nth_error h r) /\
  (forall r, r < length h ->
     nth_error (snd (recursive_simple_cycles_st rG h)) r = nth_error h r) /\
  (forall r, r < length h ->
     nth_error (snd (chords_st rG h)) r = nth_error h r) /\
  (forall source o r, r < length h ->
     nth_error (snd (find_cycle_st rG source o h)) r = nth_error h r).
Proof.
  split; [intros pick root; apply keeps_all, keeps_cycle_basis |].
  split; [intros pick; apply keeps_all, keeps_simple_cycles |].
  split; [apply keeps_all, keeps_recursive_simple_cycles |].
  split; [apply keeps_all, keeps_chords |].
  intros source o. apply keeps_all, keeps_find_cycle.
Qed.

(** ** The operations over the store compute what the operations on
    graph values compute *)

Lemma bind_ret (A B : Type) (a : A) (f : A -> M B) h :
  bind (ret a) f h = f a h.
Proof. reflexivity. Qed.

Lemma bind_new (B : Type) g (f : ref -> M B) h :
  bind (new_object g) f h = f (length h) (h ++ [g]).
Proof. reflexivity. Qed.

Lemma bind_read (B : Type) r g (f : Graph -> M B) h :
  nth_error h r = Some g -> bind (read r) f h = f g h.
Proof. intros H. unfold bind, read. now rewrite H. Qed.

Lemma bind_mutate (B : Type) r g k (f : unit -> M B) h :
  nth_error h r = Some g ->
  bind (mutate r k) f h = f tt (replace_at r (k g) h).
Proof. intros H. unfold bind, mutate. now rewrite H. Qed.

Lemma bind_assoc (A B C : Type) (m : M A) (f : A -> M B) (k : B -> M C) h :
  bind (bind m f) k h = bind m (fun a => bind (f a) k) h.
Proof. unfold bind. destruct (m h) as [[a | | |] h']; reflexivity. Qed.

Lemma nth_error_snoc (h : store) g : nth_error (h ++ [g]) (length h) = Some g.
Proof. rewrite nth_error_app2, Nat.sub_diag; [reflexivity | lia]. Qed.

Lemma nth_error_grow (h l : store) r g :
  nth_error h r = Some g -> nth_error (h ++ l) r = Some g.
Proof.
  intros H. rewrite nth_error_app1; [exact H |].
  apply nth_error_Some. congruence.
Qed.

Lemma nth_error_replace_same : forall (h : store) r g,
  r < length h -> nth_error (replace_at r g h) r = Some g.
Proof.
  induction h as [| x t IH]; intros r g H; simpl in H; [lia |].
  destruct r; simpl; [reflexivity |]. apply IH. lia.
Qed.

Lemma nth_error_replace_other : forall (h : store) r r' g,
  r <> r' -> nth_error (replace_at r g h) r' = nth_error h r'.
Proof.
  induction h as [| x t IH]; intros r r' g H; [reflexivity |].
  destruct r, r'; simpl; try reflexivity; [contradiction |].
  apply IH. lia.
Qed.

Lemma find_cycle_st_agrees h rG G source o :
  nth_error h rG = Some G ->
  find_cycle_st rG source o h = (Returned (find_cycle G source o), h).
Proof. intros H. unfold find_cycle_st. now rewrite (@bind_read _ _ _ _ _ H). Qed.

Lemma sccs_loop_st_agrees pick rS : forall fuel sccs out h subG,
  nth_error h rS = Some subG ->
  fst (sccs_loop_st fuel pick rS sccs out h)
  = sccs_loop fuel pick subG sccs out.
Proof.
  induction fuel as [| f IH]; intros sccs out h subG H; [reflexivity |].
  cbn [sccs_loop_st sccs_loop].
  destruct sccs as [| scc rest]; [reflexivity |].
  destruct (set_pop pick scc) as [[startnode scc'] |]; [| reflexivity].
  rewrite (@bind_read _ _ _ _ _ H). cbv zeta.
  destruct (finished _); [| reflexivity].
  rewrite (@bind_mutate _ _ _ _ _ _ H).
  assert (L : rS < length h) by (apply nth_error_Some; congruence).
  rewrite (@bind_read _ _ _ _ _ (@nth_error_replace_same _ _ _ L)).
  rewrite bind_new, (@bind_read _ _ _ _ _ (@nth_error_snoc _ _)).
  apply IH. apply nth_error_grow. now apply nth_error_replace_same.
Qed.

Lemma simple_cycles_st_agrees pick h rG G :
  nth_error h rG = Some G ->
  fst (simple_cycles_st pick rG h) = simple_cycles pick G.
Proof.
  intros H. unfold simple_cycles_st, simple_cycles, not_implemented_for.
  rewrite (@bind_read _ _ _ _ _ H).
  destruct (undirected_kind G); [reflexivity |].
  rewrite bind_new, (@bind_read _ _ _ _ _ (@nth_error_snoc _ _)).
  apply sccs_loop_st_agrees. apply nth_error_snoc.
Qed.

Lemma starts_loop_st_agrees rG G : forall ss st h,
  nth_error h rG = Some G ->
  fst (starts_loop_st rG ss st h) = starts_loop G ss st.
Proof.
  induction ss as [| s rest IH]; intros st h H; [reflexivity |].
  cbn [starts_loop_st starts_loop].
  rewrite (@bind_read _ _ _ _ _ H). cbv zeta.
  rewrite bind_new, (@bind_read _ _ _ _ _ (@nth_error_snoc _ _)).
  destruct (min_component _ _) as [mincomp |]; [| reflexivity].
  rewrite bind_new, (@bind_read _ _ _ _ _ (@nth_error_snoc _ _)).
  destruct (node_list (subgraph G mincomp)) as [| first others] eqn:E.
  - apply IH. now do 2 apply nth_error_grow.
  - destruct (circuit _ _ _ _ _) as [[c st'] | | |]; try reflexivity.
    apply IH. now do 2 apply nth_error_grow.
Qed.

Lemma recursive_simple_cycles_st_agrees h rG G :
  nth_error h rG = Some G ->
  fst (recursive_simple_cycles_st rG h) = recursive_simple_cycles G.
Proof.
  intros H.
  unfold recursive_simple_cycles_st, recursive_simple_cycles,
    not_implemented_for.
  rewrite (@bind_read _ _ _ _ _ H).
  destruct (undirected_kind G); [reflexivity |].
  now apply starts_loop_st_agrees.
Qed.

Lemma chords_st_agrees h rG G :
  nth_error h rG = Some G ->
  exists rC rT h',
    chords_st rG h = (Returned (rC, rT), h') /\
    nth_error h' rC = Some (fst (chords G)) /\
    nth_error h' rT = Some (snd (chords G)) /\
    nth_error h' rG = Some G.
Proof.
  intros H. unfold chords_st, chords.
  assert (L : rG < length h) by (apply nth_error_Some; congruence).
  rewrite (@bind_read _ _ _ _ _ H).
  destruct (is_directed G); destruct (is_multigraph G);
    repeat first
      [ rewrite bind_assoc
      | rewrite bind_new
      | rewrite (@bind_read _ _ _ _ _ (@nth_error_snoc _ _))
      | rewrite (@bind_read _ _ _ _ _ (@nth_error_grow _ _ _ _ (@nth_error_snoc _ _)))
      | rewrite (@bind_mutate _ _ _ _ _ _ (@nth_error_snoc _ _))
      | rewrite (@bind_mutate _ _ _ _ _ _ (@nth_error_grow _ _ _ _ (@nth_error_snoc _ _)))
      | rewrite bind_ret ];
    unfold ret; do 3 eexists; (split; [reflexivity |]);
    cbn [fst snd];
    repeat split;
    repeat first
      [ rewrite nth_error_replace_same
          by (repeat (rewrite length_app; simpl); lia)
      | rewrite nth_error_replace_other
          by (repeat (rewrite length_app; simpl); lia) ];
    try reflexivity;
    repeat first
      [ apply nth_error_snoc
      | apply nth_error_grow ];
    try exact H.
Qed.

Lemma cycle_basis_st_agrees pick root h rG G :
  nth_error h rG = Some G ->
  fst (cycle_basis_st pick root rG h) = cycle_basis pick root G.
Proof.
  intros H.
  unfold cycle_basis_st, cycle_basis, cycle_basis_trace, not_implemented_for.
  rewrite (@bind_read _ _ _ _ _ H).
  destruct (directed_kind G); [reflexivity |].
  destruct (is_multigraph G).
  - rewrite !bind_assoc.
    destruct (@chords_st_agrees h rG G H) as [rC [rT [h' [E [HC [HT HG]]]]]].
    unfold bind at 1. rewrite E. cbn [fst snd].
    repeat first
      [ rewrite bind_assoc
      | rewrite (@bind_read _ _ _ _ _ HC)
      | rewrite (@bind_read _ _ _ _ _ HT)
      | rewrite bind_new
      | rewrite bind_ret ].
    cbn [fst snd].
    rewrite (@bind_read _ _ _ _ _ (@nth_error_snoc _ _)).
    unfold doubled_edge_cycles. destruct (chords G) as [C T]. cbn [fst snd].
    destruct (components_loop _ pick _ _ root _ []) as [[c r] | | |];
      reflexivity.
  - rewrite bind_ret. cbn [fst snd]. rewrite (@bind_read _ _ _ _ _ H).
    destruct (components_loop _ pick _ _ root _ []) as [[c r] | | |];
      reflexivity.
Qed.

(** * Further properties of [find_cycle] *)

Lemma reconcile_incl G o tail : forall edges active edges1 active1,
  reconcile G o tail edges active = Some (edges1, active1) ->
  incl edges1 edges.
Proof.
  induction edges as [| e r IH]; intros active edges1 active1 H; simpl in H.
  - inversion H. apply incl_refl.
  - destruct (mem (head_of G o e) active); [| discriminate].
    destruct r as [| last r'].
    + inversion H. intros x [].
    + destruct (Nat.eqb tail (head_of G o last)).
      * inversion H; subst. apply incl_tl, incl_refl.
      * apply IH in H. now apply incl_tl.
Qed.

(** The path a search hands over is made of edges it had or has read. *)
Lemma search_path_incl G o explored fuel :
  forall st edges seen active prev read r read',
  search fuel G o explored st edges seen active prev read = (r, read') ->
  incl read read' /\
  match r with
  | Found edges2 _ _ => incl edges2 (edges ++ read')
  | _ => True
  end.
Proof.
  induction fuel as [| fuel IH];
    intros st edges seen active prev read r read' H; simpl in H.
  - inversion H; subst. split; [apply incl_refl | exact Logic.I].
  - destruct (edge_dfs_next G o st) as [[edge st'] |].
    2:{ inversion H; subst. split; [apply incl_refl | exact Logic.I]. }
    destruct (if match prev with
                 | Some p => negb (Nat.eqb (tail_of G o edge) p)
                 | None => false
                 end
              then reconcile G o (tail_of G o edge) edges active
              else Some (edges, active)) as [[edges1 active1] |] eqn:Q.
    2:{ inversion H; subst. split; [apply incl_tl, incl_refl | exact Logic.I]. }
    assert (I1 : incl edges1 edges).
    { destruct (match prev with
                | Some p => negb (Nat.eqb (tail_of G o edge) p)
                | None => false
                end).
      - now apply reconcile_incl in Q.
      - inversion Q. apply incl_refl. }
    destruct (mem (head_of G o edge) active1).
    + inversion H; subst. split; [apply incl_tl, incl_refl |].
      intros x [<- | Hx]; apply in_or_app; [right; now left |].
      left. now apply I1.
    + destruct (mem (head_of G o edge) explored).
      * inversion H; subst. split; [apply incl_tl, incl_refl | exact Logic.I].
      * apply IH in H. destruct H as [H1 H2].
        split; [intros x Hx; apply H1; now right |].
        destruct r; auto.
        intros x Hx. apply H2 in Hx. apply in_or_app.
        apply in_app_or in Hx. destruct Hx as [[<- | Hx] | Hx].
        -- right. apply H1. now left.
        -- left. now apply I1.
        -- now right.
Qed.

(** Every edge a search reads from the generator is an edge of [G]. *)
Lemma search_reads_stored G o explored fuel :
  forall st edges seen active prev read r read',
  its_ok G o (d_iters st) ->
  (forall e, In e read -> In (edge_id G e) (ids G)) ->
  search fuel G o explored st edges seen active prev read = (r, read') ->
  forall e, In e read' -> In (edge_id G e) (ids G).
Proof.
  induction fuel as [| fuel IH];
    intros st edges seen active prev read r read' I R H; simpl in H.
  - inversion H; subst. exact R.
  - unfold edge_dfs_next in H.
    destruct (dfs_next G o (d_stack st) (d_vnodes st) (d_vedges st)
                       (d_iters st)) as [[edge st'] |] eqn:D.
    2:{ inversion H; subst. exact R. }
    apply dfs_next_spec in D; [| exact I].
    destruct D as [popped [cur [rest [_ [_ [_ [S4 [_ [_ S7]]]]]]]]].
    assert (R' : forall e, In e (edge :: read) -> In (edge_id G e) (ids G)).
    { intros e [<- | He]; [exact S7 | auto]. }
    destruct (if match prev with
                 | Some p => negb (Nat.eqb (tail_of G o edge) p)
                 | None => false
                 end
              then reconcile G o (tail_of G o edge) edges active
              else Some (edges, active)) as [[edges1 active1] |].
    2:{ inversion H; subst. exact R'. }
    destruct (mem (head_of G o edge) active1);
      [inversion H; subst; exact R' |].
    destruct (mem (head_of G o edge) explored);
      [inversion H; subst; exact R' |].
    eapply IH; eauto.
Qed.

Lemma stored_has_edge G e :
  In (edge_id G e) (ids G) -> has_edge G (t_u e) (t_v e) = true.
Proof.
  unfold ids, has_edge. intros H. apply in_map_iff in H.
  destruct H as [s [E Hs]]. apply existsb_exists. exists s.
  split; [exact Hs |].
  unfold stored_id, edge_id, joins in *.
  destruct (is_directed G); inversion E as [[E1 E2 E3]]; simpl.
  - now rewrite !Nat.eqb_refl.
  - apply orb_true_iff.
    destruct (Nat.le_ge_cases (e_u s) (e_v s)) as [L | L];
      destruct (Nat.le_ge_cases (t_u e) (t_v e)) as [L' | L'];
      [ left | right | right | left ];
      apply andb_true_iff; split; apply Nat.eqb_eq; lia.
Qed.

Lemma trim_incl G o final : forall cycle, incl (trim G o final cycle) cycle.
Proof.
  induction cycle as [| e rest IH]; simpl; [apply incl_refl |].
  destruct (Nat.eqb (tail_of G o e) final); [apply incl_refl |].
  destruct rest; [apply incl_refl |]. now apply incl_tl.
Qed.

Lemma sources_loop_cycle_stored G o starts : forall explored log e,
  In e (l_cycle (sources_loop G o starts explored log)) ->
  In (edge_id G e) (ids G).
Proof.
  induction starts as [| s rest IH]; intros explored log e; [intros [] |].
  rewrite sources_loop_cons.
  destruct (mem s explored); [apply IH |].
  destruct (search (search_fuel G) G o explored (dfs_start s) [] [s] [s]
                   None []) as [r read] eqn:Q.
  pose proof (search_path_incl _ _ _ _ _ _ _ _ _ _ Q) as [_ P].
  destruct r as [edges final seen | seen | seen | |]; simpl;
    try apply IH; try (intros []).
  intros He. apply in_rev in He. apply P in He. simpl in He.
  eapply search_reads_stored; [| | exact Q | exact He].
  - intros n l E. discriminate.
  - intros x [].
Qed.

Lemma find_cycle_cycle_nonempty G source o c :
  find_cycle G source o = Cycle c -> exists first rest, c = first :: rest.
Proof.
  unfold find_cycle, find_cycle_locals.
  destruct (sources_loop_spec G o (nbunch_iter G source) [] [])
    as [new [_ [_ [_ [_ [H5 H6]]]]]].
  rewrite H5. destruct (l_broke _); [| discriminate].
  destruct H6 as [start [edges2 [final [Hc [Hf [Ch Cl]]]]]].
  rewrite Hf, Hc. intros H. inversion H; subst c.
  destruct edges2 as [| e edges1]; [contradiction |].
  destruct Cl as [He [Hin Hnd]].
  destruct (@trim_spec G o final (rev (e :: edges1)))
    as [pre [first [rest [_ [T _]]]]].
  { rewrite map_rev, (@chained_tails G o start _ Ch). simpl.
    apply -> in_rev. exact Hin. }
  exists first, rest. exact T.
Qed.

(** X1: [find_cycle] either raises [NetworkXNoCycle] or returns a list
    that is not empty: no [active_nodes.remove] raises [KeyError], and
    every search ends after at most as many edges as the graph has. *)
Theorem find_cycle_raises_or_returns G source o :
  find_cycle G source o = NetworkXNoCycle \/
  exists first rest, find_cycle G source o = Cycle (first :: rest).
Proof.
  pose proof (@find_cycle_no_crash G source o) as N.
  pose proof (@find_cycle_cycle_nonempty G source o) as E.
  destruct (find_cycle G source o) as [c | |].
  - right. destruct (E c eq_refl) as [first [rest ->]]. now exists first, rest.
  - now left.
  - now contradiction N.
Qed.

(** X2: Every step of the cycle [find_cycle] returns is an edge of the graph,
    whatever the orientation. *)
Theorem find_cycle_steps_are_edges G source o c :
  find_cycle G source o = Cycle c ->
  Forall (fun e => has_edge G (t_u e) (t_v e) = true) c.
Proof.
  unfold find_cycle, find_cycle_locals. intros H.
  destruct (l_error _); [discriminate |].
  destruct (l_broke _); [| discriminate].
  destruct (l_final_node _) as [f |]; [| discriminate].
  inversion H; subst c. apply Forall_forall. intros e He.
  apply stored_has_edge. apply trim_incl in He.
  eapply sources_loop_cycle_stored. exact He.
Qed.

Lemma find_cycle_steps_are_edges_witness :
  Forall (fun e => has_edge (of_pairs true false
                               [(0, 1); (1, 2); (2, 3); (3, 1)])
                            (t_u e) (t_v e) = true)
         [step 1 2; step 2 3; step 3 1].
Proof.
  apply (@find_cycle_steps_are_edges
           (of_pairs true false [(0, 1); (1, 2); (2, 3); (3, 1)])
           None Original).
  reflexivity.
Defined.

(** X3: On a graph without edges [find_cycle] raises [NetworkXNoCycle],
    whatever the nodes, the sources and the orientation. *)
Theorem find_cycle_without_edges G source o :
  edge_list G = [] -> find_cycle G source o = NetworkXNoCycle.
Proof.
  intros E.
  pose proof (@find_cycle_no_crash G source o) as N.
  destruct (find_cycle G source o) as [c | |] eqn:H;
    [| reflexivity | now contradiction N].
  exfalso. destruct (find_cycle_cycle_nonempty _ _ _ H) as [first [rest ->]].
  unfold find_cycle, find_cycle_locals in H.
  destruct (l_error _); [discriminate |].
  destruct (l_broke _); [| discriminate].
  destruct (l_final_node _) as [f |]; [| discriminate].
  assert (He : In first (trim G o f
                 (l_cycle (sources_loop G o (nbunch_iter G source) [] [])))).
  { inversion H as [H']. rewrite H'. now left. }
  apply trim_incl in He. apply sources_loop_cycle_stored in He.
  unfold ids in He. rewrite E in He. exact He.
Qed.

Lemma find_cycle_without_edges_witness :
  find_cycle (add_nodes_from (empty_graph false false) [0; 1; 2])
             (Some [2; 0]) Ignore = NetworkXNoCycle.
Proof.
  apply (@find_cycle_without_edges
           (add_nodes_from (empty_graph false false) [0; 1; 2])).
  reflexivity.
Defined.



(** * Further properties of [cycle_basis], [chords] and [_unblock] *)

Lemma set_of_nil : forall l, set_of l = [] -> l = [].
Proof.
  induction l as [| x r IH]; [reflexivity |]. simpl.
  destruct (mem x r) eqn:M; [| discriminate].
  intros H. apply IH in H. subst r. discriminate.
Qed.

(** X5: A root that is not a node of the graph: [cycle_basis] returns the
    empty list when the graph has no node, and raises [KeyError] (from
    [G[z]]) when it has one. *)
Theorem cycle_basis_root_not_in_graph pick G r :
  is_directed G = false -> is_multigraph G = false -> has_node G r = false ->
  cycle_basis pick (Some r) G
  = match node_list G with
    | [] => Returned []
    | _ :: _ => KeyError
    end.
Proof.
  intros D Mu N.
  unfold cycle_basis, cycle_basis_trace, not_implemented_for, directed_kind.
  rewrite D, Mu. rewrite components_loop_S.
  destruct (set_of (node_list G)) as [| x s] eqn:E.
  - apply set_of_nil in E. now rewrite E.
  - destruct (node_list G) as [| y l]; [discriminate |].
    cbn [walk_loop w_stack w_used lookup]. rewrite Nat.eqb_refl, N.
    reflexivity.
Qed.

Lemma cycle_basis_root_not_in_graph_witness :
  cycle_basis pick_first (Some 7) (of_pairs false false [(0, 1); (1, 2)])
  = KeyError.
Proof.
  apply (@cycle_basis_root_not_in_graph pick_first
           (of_pairs false false [(0, 1); (1, 2)]) 7); reflexivity.
Defined.

Lemma remove_edges_from_keeps : forall l G,
  is_directed (remove_edges_from G l) = is_directed G /\
  is_multigraph (remove_edges_from G l) = is_multigraph G /\
  node_list (remove_edges_from G l) = node_list G /\
  incl (edge_list (remove_edges_from G l)) (edge_list G).
Proof.
  unfold remove_edges_from.
  induction l as [| e r IH]; intros G; simpl.
  - repeat split; auto. apply incl_refl.
  - destruct (IH (remove_edge G (e_u e) (e_v e) (e_key e)))
      as [H1 [H2 [H3 H4]]].
    rewrite H1, H2, H3. repeat split; auto.
    intros x Hx. apply H4 in Hx. simpl in Hx.
    apply filter_In in Hx. apply Hx.
Qed.

(** X7: The chord graph [C] that [chords] returns is of the kind of [G], has
    the nodes of [G], and each of its edges is an edge of [G] with its
    key and its attributes. *)
Theorem chords_chord_graph G :
  is_directed (fst (chords G)) = is_directed G /\
  is_multigraph (fst (chords G)) = is_multigraph G /\
  node_list (fst (chords G)) = node_list G /\
  incl (edge_list (fst (chords G))) (edge_list G).
Proof.
  unfold chords. destruct (is_multigraph G) eqn:Mu; cbn [fst].
  - destruct (remove_edges_from_keeps
       (filter (fun n => keyed_mem n
          (edges_iter (of_edges false true
             (claim_tree_edges
                (edge_pairs
                   (if is_directed G
                    then minimum_spanning_tree (convert false true G)
                    else minimum_spanning_tree G))
                (edges_iter G)))))
          (edges_iter G)) (copy G)) as [H1 [H2 [H3 H4]]].
    simpl in *. rewrite H1, H2, H3. auto.
  - destruct (remove_edges_from_keeps
       (filter (fun n => pair_mem (e_u n, e_v n)
          (edge_pairs
             (if is_directed G
              then convert true false
                     (minimum_spanning_tree (convert false false G))
              else minimum_spanning_tree G)))
          (edges_iter G)) (copy G)) as [H1 [H2 [H3 H4]]].
    simpl in *. rewrite H1, H2, H3. auto.
Qed.

(** X8: The two graphs [chords] returns are objects made by the call: they
    are not the caller's graph or any object that existed before, and
    they are two objects. *)
Theorem chords_returns_new_objects h rG G :
  nth_error h rG = Some G ->
  exists rC rT h',
    chords_st rG h = (Returned (rC, rT), h') /\
    length h <= rC /\ length h <= rT /\ rC <> rT /\
    rC < length h' /\ rT < length h'.
Proof.
  intros H. unfold chords_st.
  rewrite (@bind_read _ _ _ _ _ H).
  destruct (is_directed G); destruct (is_multigraph G);
    repeat first
      [ rewrite bind_assoc
      | rewrite bind_new
      | rewrite (@bind_read _ _ _ _ _ (@nth_error_snoc _ _))
      | rewrite (@bind_read _ _ _ _ _
                   (@nth_error_grow _ _ _ _ (@nth_error_snoc _ _)))
      | rewrite (@bind_mutate _ _ _ _ _ _ (@nth_error_snoc _ _))
      | rewrite (@bind_mutate _ _ _ _ _ _
                   (@nth_error_grow _ _ _ _ (@nth_error_snoc _ _)))
      | rewrite bind_ret ];
    unfold ret; do 3 eexists; (split; [reflexivity |]);
    rewrite ?replace_at_length; repeat (rewrite length_app; simpl); lia.
Qed.

Lemma chords_returns_new_objects_witness :
  exists rC rT h',
    chords_st 0 [of_pairs false false [(0, 1); (1, 2); (2, 0)]]
    = (Returned (rC, rT), h') /\
    1 <= rC /\ 1 <= rT /\ rC <> rT /\ rC < length h' /\ rT < length h'.
Proof.
  apply (@chords_returns_new_objects
           [of_pairs false false [(0, 1); (1, 2); (2, 0)]] 0
           (of_pairs false false [(0, 1); (1, 2); (2, 0)])).
  reflexivity.
Defined.

Lemma In_remove_from x y (s : list node) :
  In x (remove_node_from y s) -> In x s /\ x <> y.
Proof.
  unfold remove_node_from. intros H. apply filter_In in H.
  destruct H as [H1 H2]. split; [exact H1 |].
  apply negb_true_iff, Nat.eqb_neq in H2. congruence.
Qed.

Lemma unblock_loop_shrinks : forall fuel work blocked B,
  incl (fst (unblock_loop fuel work blocked B)) blocked.
Proof.
  induction fuel as [| f IH]; intros work blocked B; simpl;
    [apply incl_refl |].
  destruct work as [| n rest]; [apply incl_refl |].
  destruct (mem n blocked); [| apply IH].
  intros x Hx. apply IH in Hx. apply In_remove_from in Hx. apply Hx.
Qed.

(** X9: [_unblock(thisnode, blocked, B)] of [simple_cycles] leaves [thisnode]
    unblocked and blocks no node. *)
Theorem unblock_unblocks thisnode blocked B :
  ~ In thisnode (fst (unblock thisnode blocked B)) /\
  incl (fst (unblock thisnode blocked B)) blocked.
Proof.
  split; [| apply unblock_loop_shrinks].
  unfold unblock. cbn [Nat.mul Nat.add unblock_loop].
  destruct (mem thisnode blocked) eqn:M.
  - intros H. apply unblock_loop_shrinks in H.
    apply In_remove_from in H. now destruct H.
  - apply mem_false_In in M. intros H.
    apply unblock_loop_shrinks in H. contradiction.
Qed.

Lemma unblock_calls_shrinks : forall fuel frames blocked B b' B',
  unblock_calls fuel frames blocked B = Returned (b', B') ->
  incl b' blocked.
Proof.
  induction fuel as [| f IH]; intros frames blocked B b' B' H; simpl in H;
    [discriminate |].
  destruct frames as [| t rest]; [inversion H; apply incl_refl |].
  destruct (B_get B t) as [| w ws]; [eauto |].
  destruct (mem w blocked); [| eauto].
  apply IH in H. intros x Hx. apply H in Hx.
  apply In_remove_from in Hx. apply Hx.
Qed.

(** X14: when [_unblock(thisnode)] of [recursive_simple_cycles] returns,
    the flag of [thisnode] is off and no flag was turned on. *)
Theorem unblock_rec_unblocks thisnode blocked B b' B' :
  unblock_rec thisnode blocked B = Returned (b', B') ->
  ~ In thisnode b' /\ incl b' blocked.
Proof.
  unfold unblock_rec. destruct (mem thisnode blocked) eqn:M.
  - intros H. apply unblock_calls_shrinks in H. split.
    + intros F. apply H in F. apply In_remove_from in F. now destruct F.
    + intros x Hx. apply H in Hx. apply In_remove_from in Hx. apply Hx.
  - intros H. inversion H; subst. apply mem_false_In in M.
    split; [exact M | apply incl_refl].
Qed.

Lemma unblock_rec_unblocks_witness :
  ~ In 1 [3] /\ incl [3] [1; 2; 3].
Proof.
  apply (@unblock_rec_unblocks 1 [1; 2; 3] [(1, [2]); (2, [])] [3]
           [(1, []); (2, [])]).
  reflexivity.
Defined.

(** * The two enumerators on small graphs *)

Lemma list_eqb_eq : forall a b, list_eqb a b = true -> a = b.
Proof.
  induction a as [| x a IH]; destruct b as [| y b]; simpl;
    try discriminate; [reflexivity |].
  intros H. apply andb_prop in H. destruct H as [H1 H2].
  apply Nat.eqb_eq in H1. apply IH in H2. congruence.
Qed.

Lemma is_rotation_spec a b : is_rotation a b = true -> rotation a b.
Proof.
  unfold is_rotation, rotation. intros H. apply existsb_exists in H.
  destruct H as [k [_ H]]. exists k. now apply list_eqb_eq.
Qed.

Lemma same_circuitsb_spec la lb :
  same_circuitsb la lb = true -> same_circuits la lb.
Proof.
  unfold same_circuitsb, same_circuits. intros H.
  apply andb_prop in H. destruct H as [H H3].
  apply andb_prop in H. destruct H as [H1 H2].
  split; [now apply Nat.eqb_eq |]. split.
  - apply Forall_forall. intros a Ha. rewrite forallb_forall in H2.
    apply H2 in Ha. apply existsb_exists in Ha. destruct Ha as [b [Hb R]].
    apply Exists_exists. exists b. split; [exact Hb |].
    now apply is_rotation_spec.
  - apply Forall_forall. intros b Hb. rewrite forallb_forall in H3.
    apply H3 in Hb. apply existsb_exists in Hb. destruct Hb as [a [Ha R]].
    apply Exists_exists. exists a. split; [exact Ha |].
    now apply is_rotation_spec.
Qed.

Lemma enumerators_agreeb_spec G :
  enumerators_agreeb G = true -> enumerators_agree G.
Proof.
  unfold enumerators_agreeb, enumerators_agree.
  destruct (simple_cycles pick_first G) as [la | | |]; try discriminate.
  destruct (recursive_simple_cycles G) as [lb | | |]; try discriminate.
  intros H. exists la, lb. split; [reflexivity |]. split; [reflexivity |].
  now apply same_circuitsb_spec.
Qed.

(** X12: On each of the 512 directed graphs whose edges are ordered pairs of
    the nodes 0, 1, 2 (self-loops allowed, edges added in lexicographic
    order), and on the same graphs with the edges added in the reverse
    order, [simple_cycles] and [recursive_simple_cycles] return the same
    number of circuits and every circuit of one is a rotation of a
    circuit of the other. *)
Theorem enumerators_agree_on_three_nodes :
  Forall (fun es => enumerators_agree (of_pairs true false es) /\
                    enumerators_agree (of_pairs true false (rev es)))
         (sublists (all_pairs 3)).
Proof.
  apply Forall_forall. intros es Hes.
  assert (H : forallb (fun es => enumerators_agreeb (of_pairs true false es)
                        && enumerators_agreeb (of_pairs true false (rev es)))
                      (sublists (all_pairs 3)) = true)
    by (vm_compute; reflexivity).
  rewrite forallb_forall in H. apply H in Hes.
  apply andb_prop in Hes. destruct Hes as [H1 H2].
  split; now apply enumerators_agreeb_spec.
Qed.

(** * [simple_cycles] returns closed walks *)

Lemma In_dedup_acc : forall l seenl x, In x (dedup_acc seenl l) -> In x l.
Proof.
  induction l as [| y r IH]; intros seenl x H; simpl in *; [exact H |].
  destruct (mem y seenl); [right; eauto |].
  destruct H as [<- | H]; [now left | right; eauto].
Qed.

Lemma In_filter_map (A B : Type) (f : A -> option B) : forall l y,
  In y (filter_map f l) -> exists x, In x l /\ f x = Some y.
Proof.
  induction l as [| x r IH]; intros y H; simpl in H; [contradiction |].
  destruct (f x) as [z |] eqn:E.
  - destruct H as [<- | H]; [exists x; split; [now left | exact E] |].
    destruct (IH y H) as [x' [H1 H2]]. exists x'. split; [now right | exact H2].
  - destruct (IH y H) as [x' [H1 H2]]. exists x'. split; [now right | exact H2].
Qed.

Lemma out_end_joins d u v e : out_end d u e = Some v -> joins d u v e = true.
Proof.
  unfold out_end, joins. destruct (Nat.eqb (e_u e) u) eqn:E1.
  - intros H. inversion H. now rewrite Nat.eqb_refl.
  - destruct (negb d && Nat.eqb (e_v e) u) eqn:E2; [| discriminate].
    intros H. inversion H. apply andb_prop in E2. destruct E2 as [E2 E3].
    rewrite E2, E3, Nat.eqb_refl. simpl. rewrite ?orb_true_r. reflexivity.
Qed.

Lemma nbrs_has_edge G u v : In v (nbrs G u) -> has_edge G u v = true.
Proof.
  unfold nbrs, dedup, has_edge. intros H. apply In_dedup_acc in H.
  apply In_filter_map in H. destruct H as [e [He Ho]].
  apply existsb_exists. exists e. split; [exact He |].
  now apply out_end_joins.
Qed.

Lemma has_edge_remove_node G n u v :
  has_edge (remove_node G n) u v = true -> has_edge G u v = true.
Proof.
  unfold has_edge, remove_node. simpl. intros H.
  apply existsb_exists in H. destruct H as [e [He J]].
  apply filter_In in He. apply existsb_exists. exists e. split; tauto.
Qed.

Lemma update_data_joins d a b x u v : forall l,
  existsb (joins d u v) (update_data d a b x l) = existsb (joins d u v) l.
Proof.
  induction l as [| e r IH]; [reflexivity |]. simpl.
  destruct (joins d a b e); simpl; [reflexivity | now rewrite IH].
Qed.

Lemma update_keyed_joins d a b k x u v : forall l,
  existsb (joins d u v) (update_keyed d a b k x l) = existsb (joins d u v) l.
Proof.
  induction l as [| e r IH]; [reflexivity |]. simpl.
  destruct (joins d a b e && Nat.eqb (e_key e) k); simpl;
    [reflexivity | now rewrite IH].
Qed.

Lemma add_edge_directed G a b k x :
  is_directed (add_edge G a b k x) = is_directed G.
Proof.
  unfold add_edge. destruct (is_multigraph G).
  - destruct (existsb _ (edge_list G)); reflexivity.
  - destruct (has_edge G a b); reflexivity.
Qed.

Lemma has_edge_add_edge G a b k x u v :
  has_edge (add_edge G a b k x) u v = true ->
  has_edge G u v = true \/ joins (is_directed G) u v (mkEdge a b 0 0) = true.
Proof.
  unfold has_edge at 1. rewrite add_edge_directed. unfold add_edge.
  destruct (is_multigraph G).
  - destruct (existsb _ (edge_list G)); simpl.
    + rewrite update_keyed_joins. now left.
    + rewrite existsb_app. simpl. rewrite orb_false_r.
      intros H. apply orb_prop in H. destruct H as [H | H]; [now left |].
      right. exact H.
  - destruct (has_edge G a b); simpl.
    + rewrite update_data_joins. now left.
    + rewrite existsb_app. simpl. rewrite orb_false_r.
      intros H. apply orb_prop in H. destruct H as [H | H]; [now left |].
      right. exact H.
Qed.

Lemma has_edge_fold_pairs u v : forall l G0,
  is_directed G0 = true ->
  has_edge (fold_left (fun G p => add_edge G (fst p) (snd p) None 0) l G0)
           u v = true ->
  has_edge G0 u v = true \/ In (u, v) l.
Proof.
  induction l as [| p r IH]; intros G0 D H; simpl in H; [now left |].
  apply IH in H; [| now rewrite add_edge_directed].
  destruct H as [H | H]; [| right; now right].
  apply has_edge_add_edge in H. destruct H as [H | H]; [now left |].
  right. left. rewrite D in H. unfold joins in H. simpl in H.
  rewrite orb_false_r in H. apply andb_prop in H. destruct H as [H1 H2].
  apply Nat.eqb_eq in H1. apply Nat.eqb_eq in H2.
  destruct p; simpl in *; congruence.
Qed.

Lemma In_edges_from G : forall ns seenl e,
  In e (edges_from G seenl ns) -> In (e_v e) (nbrs G (e_u e)).
Proof.
  induction ns as [| n r IH]; intros seenl e H; simpl in H; [contradiction |].
  apply in_app_or in H. destruct H as [H | H]; [| eauto].
  apply in_flat_map in H. destruct H as [nb [Hnb H]].
  destruct (mem nb seenl); [contradiction |].
  apply in_map_iff in H. destruct H as [x [<- _]]. exact Hnb.
Qed.

Lemma edge_pairs_has_edge G u v :
  In (u, v) (edge_pairs G) -> has_edge G u v = true.
Proof.
  unfold edge_pairs, edges_iter. intros H. apply in_map_iff in H.
  destruct H as [e [E H]]. inversion E; subst.
  apply nbrs_has_edge. now apply In_edges_from in H.
Qed.

Lemma combine_shift : forall (l : list node) (x n s : node),
  combine (x :: l ++ [n]) ((l ++ [n]) ++ [s])
  = combine (x :: l) (l ++ [n]) ++ [(n, s)].
Proof.
  induction l as [| y l IH]; intros x n s; [reflexivity |].
  change (((x, y) :: combine (y :: l ++ [n]) ((l ++ [n]) ++ [s]))
          = (x, y) :: (combine (y :: l) (l ++ [n]) ++ [(n, s)])).
  now rewrite IH.
Qed.

Lemma succ_pairs_snoc : forall (l : list node) (n s : node),
  succ_pairs (l ++ [n]) s = succ_pairs l n ++ [(n, s)].
Proof.
  unfold succ_pairs. destruct l as [| x l]; intros n s; [reflexivity |].
  apply combine_shift.
Qed.

Lemma steps_snoc c n s :
  steps ((s :: c) ++ [n]) = succ_pairs (s :: c) n ++ [(n, s)].
Proof.
  unfold steps. change (firstn 1 ((s :: c) ++ [n])) with [s].
  apply (succ_pairs_snoc (s :: c) n s).
Qed.

Section Circuit.
Variable G : Graph.
Variable subG : Graph.
Variable startnode : node.
Hypothesis Hsub : forall u v, has_edge subG u v = true -> has_edge G u v = true.

Lemma walk_tail (path : list node) u v :
  In (u, v) (succ_pairs (rev (tl (tl path))) (hd 0 (tl path))) ->
  In (u, v) (succ_pairs (rev (tl path)) (hd 0 path)).
Proof.
  destruct path as [| n [| m r]]; simpl; try (intros []).
  rewrite succ_pairs_snoc. intros H. apply in_or_app. now left.
Qed.

Lemma leave_inv thisnode nbrl rest st any :
  circuit_inv G subG startnode st ->
  c_stack st = (thisnode, any) :: rest ->
  incl nbrl (nbrs subG thisnode) ->
  circuit_inv G subG startnode (leave subG thisnode nbrl rest st).
Proof.
  intros J E Hn. pose proof (ci_stack J) as S. rewrite E in S. simpl in S.
  pose proof (ci_frames J) as F. rewrite E in F.
  inversion F as [| ? ? _ F']; subst.
  destruct nbrl as [| x nbrl]; unfold leave.
  - destruct (if mem thisnode (c_closed st)
              then unblock thisnode (c_blocked st) (c_B st)
              else (c_blocked st,
                    register thisnode (nbrs subG thisnode) (c_B st)))
      as [blocked' B'].
    constructor; simpl.
    + rewrite <- S. reflexivity.
    + intros Hr. destruct (ci_start J) as [pre P]; [rewrite E; discriminate |].
      rewrite <- S in P. destruct pre as [| p pre].
      * simpl in P. inversion P as [[P1 P2]].
        destruct rest; [contradiction | discriminate].
      * simpl in P. inversion P as [[P1 P2]]. exists pre.
        rewrite <- S. simpl. exact P2.
    + exact F'.
    + intros u v H. apply (ci_walk J). now apply walk_tail.
    + exact (ci_out J).
  - constructor; simpl.
    + exact S.
    + intros _. apply (ci_start J). rewrite E. discriminate.
    + constructor; [exact Hn | exact F'].
    + exact (ci_walk J).
    + exact (ci_out J).
Qed.

Lemma circuit_step_inv st :
  circuit_inv G subG startnode st ->
  circuit_inv G subG startnode (circuit_step subG startnode st).
Proof.
  intros J. unfold circuit_step.
  destruct (c_stack st) as [| [thisnode nbrl] rest] eqn:E; [exact J |].
  pose proof (ci_stack J) as S. rewrite E in S. simpl in S.
  pose proof (ci_frames J) as F. rewrite E in F.
  inversion F as [| ? ? Hn F']; subst. simpl in Hn.
  destruct nbrl as [| nextnode nbrl'].
  - apply leave_inv with (any := []); [exact J | exact E |].
    intros x [].
  - assert (Hn' : incl nbrl' (nbrs subG thisnode)).
    { intros x Hx. apply Hn. now right. }
    assert (He : has_edge G thisnode nextnode = true).
    { apply Hsub, nbrs_has_edge, Hn. now left. }
    destruct (Nat.eqb nextnode startnode) eqn:Q.
    + apply Nat.eqb_eq in Q. subst nextnode.
      apply leave_inv with (any := startnode :: nbrl');
        [| reflexivity | exact Hn'].
      constructor; simpl;
        [ exact S
        | intros _; apply (ci_start J); rewrite E; discriminate
        | exact F
        | exact (ci_walk J)
        | ].
      constructor; [| exact (ci_out J)].
      destruct (ci_start J) as [pre P]; [rewrite E; discriminate |].
      split.
      { rewrite P, rev_app_distr. discriminate. }
      intros u v H.
      assert (R : rev (c_path st) = rev (tl (c_path st)) ++ [thisnode]).
      { rewrite <- S. reflexivity. }
      destruct (rev (tl (c_path st))) as [| s0 c] eqn:T.
      * rewrite R in H. simpl in H. destruct H as [H | []].
        inversion H; subst.
        rewrite P, rev_app_distr in R. simpl in R.
        inversion R; subst. exact He.
      * assert (s0 = startnode).
        { rewrite P, rev_app_distr in R. simpl in R. now inversion R. }
        subst s0. rewrite R, steps_snoc in H.
        apply in_app_or in H. destruct H as [H | [H | []]].
        -- apply (ci_walk J). rewrite T, <- S. exact H.
        -- inversion H; subst. exact He.
    + destruct (negb (mem nextnode (c_blocked st))).
      * constructor; simpl.
        -- now rewrite S.
        -- intros _. destruct (ci_start J) as [pre P];
             [rewrite E; discriminate |].
           exists (nextnode :: pre). now rewrite P.
        -- constructor; [| constructor; [exact Hn' | exact F']].
           simpl. intros x Hx. now apply in_rev in Hx.
        -- intros u v H. rewrite <- S in H. simpl in H.
           rewrite succ_pairs_snoc in H.
           apply in_app_or in H. destruct H as [H | [H | []]].
           ++ apply (ci_walk J). rewrite <- S. exact H.
           ++ inversion H; subst. exact He.
        -- exact (ci_out J).
      * apply leave_inv with (any := nextnode :: nbrl');
          [exact J | exact E | exact Hn'].
Qed.

Lemma circuit_run_inv n : forall st,
  circuit_inv G subG startnode st ->
  circuit_inv G subG startnode (circuit_run n subG startnode st).
Proof.
  induction n as [| n IH]; intros st J; simpl;
    [now apply circuit_step_inv |].
  destruct (finished _); auto.
Qed.

Lemma circuit_start_inv out :
  Forall (closed_walk G) out ->
  circuit_inv G subG startnode (circuit_start subG startnode out).
Proof.
  intros H. constructor; simpl.
  - reflexivity.
  - intros _. now exists [].
  - constructor; [| constructor]. simpl. intros x Hx. now apply in_rev in Hx.
  - intros u v [].
  - exact H.
Qed.

End Circuit.

Lemma sccs_loop_walks pick G : forall fuel subG sccs out l,
  (forall u v, has_edge subG u v = true -> has_edge G u v = true) ->
  Forall (closed_walk G) out ->
  sccs_loop fuel pick subG sccs out = Returned l ->
  Forall (closed_walk G) l.
Proof.
  induction fuel as [| f IH]; intros subG sccs out l Hs Ho H;
    [discriminate |].
  cbn [sccs_loop] in H. destruct sccs as [| scc rest].
  - inversion H; subst. unfold rev'. rewrite <- rev_alt.
    apply Forall_forall. intros c Hc. apply in_rev in Hc.
    rewrite Forall_forall in Ho. auto.
  - destruct (set_pop pick scc) as [[startnode scc'] |]; [| discriminate].
    cbv zeta in H.
    destruct (finished _) eqn:Fi; [| discriminate].
    apply IH in H; [exact H | |].
    + intros u v Huv. apply Hs. now apply has_edge_remove_node in Huv.
    + apply (ci_out (circuit_run_inv Hs _
                       (circuit_start_inv subG startnode Ho))).
Qed.

(** X10: Every list [simple_cycles] returns is a closed walk of the graph: it
    is not empty, each of its nodes has an edge to the next one and its
    last node has an edge to its first. *)
Theorem simple_cycles_closed_walks pick G l :
  simple_cycles pick G = Returned l -> Forall (closed_walk G) l.
Proof.
  unfold simple_cycles, not_implemented_for.
  destruct (undirected_kind G); [discriminate |].
  apply sccs_loop_walks; [| constructor].
  intros u v H. unfold of_pairs in H. apply has_edge_fold_pairs in H.
  - destruct H as [H | H]; [discriminate | now apply edge_pairs_has_edge].
  - reflexivity.
Qed.

Lemma simple_cycles_closed_walks_witness :
  Forall (closed_walk
            (of_pairs true false
               [(0, 0); (0, 1); (0, 2); (1, 2); (2, 0); (2, 1); (2, 2)]))
         [[0; 2]; [0; 1; 2]; [0]; [1; 2]; [2]].
Proof.
  apply (@simple_cycles_closed_walks pick_first
           (of_pairs true false
              [(0, 0); (0, 1); (0, 2); (1, 2); (2, 0); (2, 1); (2, 2)])).
  reflexivity.
Defined.

(** * [recursive_simple_cycles] returns closed walks *)

Lemma has_edge_subgraph G nb u v :
  has_edge (subgraph G nb) u v = true -> has_edge G u v = true.
Proof.
  unfold has_edge, subgraph. simpl. intros H.
  apply existsb_exists in H. destruct H as [e [He J]].
  apply filter_In in He. apply existsb_exists. exists e. split; tauto.
Qed.

(** A path that starts at [startnode], walks along edges and whose last
    node has an edge back to [startnode], read forward, is a closed
    walk.  The path is held last node first. *)
Lemma closing_walk G startnode thisnode t pre :
  thisnode :: t = pre ++ [startnode] ->
  (forall u v, In (u, v) (succ_pairs (rev t) thisnode) ->
               has_edge G u v = true) ->
  has_edge G thisnode startnode = true ->
  closed_walk G (rev (thisnode :: t)).
Proof.
  intros P W He. split.
  { rewrite P, rev_app_distr. discriminate. }
  intros u v H.
  assert (R : rev (thisnode :: t) = rev t ++ [thisnode]) by reflexivity.
  destruct (rev t) as [| s0 c] eqn:T.
  - rewrite R in H. simpl in H. destruct H as [H | []].
    inversion H; subst.
    rewrite P, rev_app_distr in R. simpl in R. inversion R; subst. exact He.
  - assert (s0 = startnode).
    { rewrite P, rev_app_distr in R. simpl in R. now inversion R. }
    subst s0. rewrite R, steps_snoc in H.
    apply in_app_or in H. destruct H as [H | [H | []]].
    + now apply W.
    + inversion H; subst. exact He.
Qed.

Lemma walks_push G startnode p thisnode nextnode :
  walks G startnode (thisnode :: p) ->
  has_edge G thisnode nextnode = true ->
  walks G startnode (nextnode :: thisnode :: p).
Proof.
  intros [[pre P] W] He. split.
  - exists (nextnode :: pre). now rewrite P.
  - intros u v H. simpl in H. rewrite succ_pairs_snoc in H.
    apply in_app_or in H. destruct H as [H | [H | []]].
    + now apply W.
    + inversion H; subst. exact He.
Qed.

Section Recursive.
Variable G : Graph.
Variable component : Graph.
Variable startnode : node.
Hypothesis Hsub :
  forall u v, has_edge component u v = true -> has_edge G u v = true.

Lemma circuit_walks fuel : forall thisnode st r st',
  walks G startnode (thisnode :: r_path st) ->
  Forall (closed_walk G) (r_result st) ->
  circuit fuel component startnode thisnode st = Returned (r, st') ->
  r_path st' = r_path st /\ Forall (closed_walk G) (r_result st').
Proof.
  induction fuel as [| f IH]; intros thisnode st r st' W Ho H;
    [discriminate |].
  cbn [circuit] in H.
  match type of H with
  | context [?F (nbrs component thisnode) false ?s0] =>
      set (scan := F) in H; set (st0 := s0) in H
  end.
  assert (Sc : forall nbrl closed s c s1,
             incl nbrl (nbrs component thisnode) ->
             r_path s = thisnode :: r_path st ->
             Forall (closed_walk G) (r_result s) ->
             scan nbrl closed s = Returned (c, s1) ->
             r_path s1 = thisnode :: r_path st /\
             Forall (closed_walk G) (r_result s1)).
  { induction nbrl as [| nextnode nbrl IHn]; intros closed s c s1 Hn Hp Hr Hs.
    - simpl in Hs. inversion Hs; subst. auto.
    - assert (He : has_edge G thisnode nextnode = true).
      { apply Hsub, nbrs_has_edge, Hn. now left. }
      assert (Hn' : incl nbrl (nbrs component thisnode)).
      { intros x Hx. apply Hn. now right. }
      simpl in Hs. destruct (Nat.eqb nextnode startnode) eqn:Q.
      + apply Nat.eqb_eq in Q. subst nextnode.
        apply IHn in Hs; auto. simpl.
        constructor; [| exact Hr]. rewrite Hp.
        destruct W as [[pre P] Wk].
        now apply closing_walk with (startnode := startnode) (pre := pre).
      + destruct (negb (mem nextnode (r_blocked s))).
        * destruct (circuit f component startnode nextnode s)
            as [[c' s'] | | |] eqn:C; try discriminate.
          apply IH in C; [| rewrite Hp; now apply walks_push | exact Hr].
          destruct C as [C1 C2].
          apply IHn in Hs; auto. congruence.
        * apply IHn in Hs; auto. }
  destruct (scan (nbrs component thisnode) false st0)
    as [[closed s] | | |] eqn:Hs; try discriminate.
  apply Sc in Hs; [| apply incl_refl | reflexivity | exact Ho].
  destruct Hs as [Hp Hr].
  destruct closed.
  - destruct (unblock_rec thisnode (r_blocked s) (r_B s))
      as [[blocked' B'] | | |]; try discriminate.
    inversion H; subst. simpl. rewrite Hp. auto.
  - inversion H; subst. simpl. rewrite Hp. auto.
Qed.

End Recursive.

Lemma starts_loop_walks G : forall ss st l,
  r_path st = [] ->
  Forall (closed_walk G) (r_result st) ->
  starts_loop G ss st = Returned l ->
  Forall (closed_walk G) l.
Proof.
  induction ss as [| s rest IH]; intros st l Hp Hr H; cbn [starts_loop] in H.
  - inversion H; subst. unfold rev'. rewrite <- rev_alt.
    apply Forall_forall. intros c Hc. apply in_rev in Hc.
    rewrite Forall_forall in Hr. auto.
  - cbv zeta in H.
    destruct (min_component _ _) as [mincomp |]; [| discriminate].
    destruct (node_list (subgraph G mincomp)) as [| first others];
      [now apply IH in H |].
    destruct (circuit _ _ _ _ _) as [[c st'] | | |] eqn:C; try discriminate.
    apply circuit_walks with (G := G) in C.
    + destruct C as [C1 C2]. apply IH in H; auto.
      rewrite C1. simpl. exact Hp.
    + apply has_edge_subgraph.
    + simpl. rewrite Hp. split; [now exists [] | intros u v []].
    + simpl. exact Hr.
Qed.

(** X11: Every list [recursive_simple_cycles] returns is a closed walk of the
    graph. *)
Theorem recursive_simple_cycles_closed_walks G l :
  recursive_simple_cycles G = Returned l -> Forall (closed_walk G) l.
Proof.
  unfold recursive_simple_cycles, not_implemented_for.
  destruct (undirected_kind G); [discriminate |].
  apply starts_loop_walks; [reflexivity | constructor].
Qed.

Lemma recursive_simple_cycles_closed_walks_witness :
  Forall (closed_walk
            (of_pairs true false
               [(0, 0); (0, 1); (0, 2); (1, 2); (2, 0); (2, 1); (2, 2)]))
         [[0]; [0; 1; 2]; [0; 2]; [1; 2]; [2]].
Proof.
  apply (@recursive_simple_cycles_closed_walks
           (of_pairs true false
              [(0, 0); (0, 1); (0, 2); (1, 2); (2, 0); (2, 1); (2, 2)])).
  reflexivity.
Defined.

(** * [cycle_basis] returns closed walks *)

Lemma lookup_assign (A : Type) (n x : node) (a : A) : forall d,
  lookup x (assign n a d) = if Nat.eqb x n then Some a else lookup x d.
Proof.
  induction d as [| [m a0] r IH]; simpl; [reflexivity |].
  destruct (Nat.eqb_spec n m) as [-> | Hnm]; simpl.
  - destruct (Nat.eqb x m); reflexivity.
  - rewrite IH. destruct (Nat.eqb_spec x m) as [-> | Hxm]; [| reflexivity].
    destruct (Nat.eqb_spec m n); [congruence | reflexivity].
Qed.

Lemma dedup_acc_NoDup : forall l seenl,
  NoDup (dedup_acc seenl l) /\
  forall x, In x (dedup_acc seenl l) -> ~ In x seenl.
Proof.
  induction l as [| y r IH]; intros seenl; simpl.
  - split; [constructor | intros x []].
  - destruct (mem y seenl) eqn:M; [apply IH |].
    apply mem_false_In in M.
    destruct (IH (y :: seenl)) as [N D]. split.
    + constructor; [| exact N]. intros H. apply D in H. apply H. now left.
    + intros x [<- | H]; [exact M |].
      apply D in H. intros F. apply H. now right.
Qed.

Lemma nbrs_NoDup G z : NoDup (nbrs G z).
Proof. unfold nbrs, dedup. apply dedup_acc_NoDup. Qed.

Lemma joins_sym u v e : joins false u v e = joins false v u e.
Proof.
  unfold joins. simpl.
  destruct (Nat.eqb (e_u e) u), (Nat.eqb (e_v e) v), (Nat.eqb (e_u e) v),
    (Nat.eqb (e_v e) u); reflexivity.
Qed.

Lemma has_edge_sym G u v :
  is_directed G = false -> has_edge G u v = has_edge G v u.
Proof.
  unfold has_edge. intros ->.
  induction (edge_list G) as [| e r IH]; [reflexivity |].
  simpl. now rewrite IH, joins_sym.
Qed.

Section Walk.
Variable G : Graph.
Variable root : node.
Hypothesis Hd : is_directed G = false.

Lemma climb_stuck pred pn p : forall fuel cycle cyc,
  lookup p pred = Some p -> mem p pn = false ->
  climb fuel pred pn p cycle = Returned cyc -> False.
Proof.
  induction fuel as [| f IH]; intros cycle cyc L M H; simpl in H;
    [discriminate |].
  rewrite M, L in H. eauto.
Qed.

Lemma climb_walks nbr pred pn :
  (forall x q, lookup x pred = Some q ->
               (x = root /\ q = root) \/ has_edge G q x = true) ->
  (forall y, In y pn -> has_edge G y nbr = true) ->
  forall fuel p cycle cyc,
    walks G nbr (p :: cycle) ->
    climb fuel pred pn p cycle = Returned cyc ->
    closed_walk G (rev cyc).
Proof.
  intros HP HU. induction fuel as [| f IH]; intros p cycle cyc W H;
    simpl in H; [discriminate |].
  destruct (mem p pn) eqn:M.
  - inversion H; subst. destruct W as [[pre P] Wk].
    apply closing_walk with (startnode := nbr) (pre := pre); auto.
    apply HU. now apply mem_In.
  - destruct (lookup p pred) as [q |] eqn:L; [| discriminate].
    destruct (HP p q L) as [[-> ->] | E].
    + exfalso. eapply climb_stuck; eauto.
    + apply IH in H; [exact H |].
      apply walks_push; [exact W |]. now rewrite has_edge_sym.
Qed.

Lemma visit_nbrs_inv n z zused : forall nbrl done w w',
  NoDup (done ++ nbrl) ->
  incl nbrl (nbrs G z) ->
  (forall x q, lookup x (w_pred w) = Some q ->
               (x = root /\ q = root) \/ has_edge G q x = true) ->
  (forall x pn y, lookup x (w_used w) = Some pn -> In y pn ->
                  has_edge G y x = true) ->
  lookup root (w_used w) <> None ->
  ~ In root (w_stack w) ->
  (z = root -> forall x a, lookup x (w_used w) = Some a ->
                           x = root \/ In x done) ->
  Forall (closed_walk G) (w_cycles w) ->
  visit_nbrs n z zused nbrl w = Returned w' ->
  walk_inv G root w'.
Proof.
  induction nbrl as [| nbr r IH]; intros done w w' ND Hn HP HU HK HS HR HC H.
  - simpl in H. inversion H; subst. constructor; auto.
    intros F. contradiction.
  - assert (He : has_edge G z nbr = true).
    { apply nbrs_has_edge, Hn. now left. }
    assert (ND' : NoDup ((done ++ [nbr]) ++ r)).
    { now rewrite <- app_assoc. }
    assert (Hn' : incl r (nbrs G z)).
    { intros x Hx. apply Hn. now right. }
    simpl in H. destruct (lookup nbr (w_used w)) as [pn |] eqn:L.
    + destruct (Nat.eqb_spec nbr z) as [-> | Nz].
      * refine (IH (done ++ [z]) _ w' ND' Hn' _ _ _ _ _ _ H); simpl.
        -- exact HP.
        -- exact HU.
        -- exact HK.
        -- exact HS.
        -- intros Zr x a Lx. destruct (HR Zr x a Lx) as [Hx | Hx];
             [now left | right; apply in_or_app; now left].
        -- apply Forall_app. split; [exact HC |].
           constructor; [| constructor]. split; [discriminate |].
           intros u v [Huv | []]. inversion Huv; subst. exact He.
      * destruct (negb (mem nbr zused)).
        -- destruct (lookup z (w_pred w)) as [p |] eqn:Lz; [| discriminate].
           destruct (climb n (w_pred w) pn p [z; nbr]) as [cyc | | |] eqn:C;
             try discriminate.
           assert (Zr : z <> root).
           { intros Zr. destruct (HR Zr nbr pn L) as [Hx | Hx].
             - congruence.
             - apply NoDup_remove_2 in ND. apply ND.
               apply in_or_app. now left. }
           assert (Ep : has_edge G p z = true).
           { destruct (HP z p Lz) as [[Hz _] | E]; [contradiction | exact E]. }
           refine (IH (done ++ [nbr]) _ w' ND' Hn' _ _ _ _ _ _ H); simpl.
           ++ exact HP.
           ++ intros x pn' y Lx Hy. rewrite lookup_assign in Lx.
              destruct (Nat.eqb_spec x nbr) as [-> | Hx]; [| eauto].
              inversion Lx; subst. apply In_set_add in Hy.
              destruct Hy as [-> | Hy]; [exact He | eauto].
           ++ rewrite lookup_assign. destruct (Nat.eqb root nbr);
                [discriminate | exact HK].
           ++ exact HS.
           ++ intros Z. contradiction.
           ++ apply Forall_app. split; [exact HC |].
              constructor; [| constructor].
              apply climb_walks with (nbr := nbr) in C; auto.
              ** intros y Hy. eauto.
              ** apply walks_push; [| now rewrite has_edge_sym].
                 apply walks_push; [| now rewrite has_edge_sym].
                 split; [now exists [] | intros u v []].
        -- refine (IH (done ++ [nbr]) _ w' ND' Hn' HP HU HK HS _ HC H).
           intros Zr x a Lx. destruct (HR Zr x a Lx) as [Hx | Hx];
             [now left | right; apply in_or_app; now left].
    + refine (IH (done ++ [nbr]) _ w' ND' Hn' _ _ _ _ _ _ H); simpl.
      * intros x q Lx. rewrite lookup_assign in Lx.
        destruct (Nat.eqb_spec x nbr) as [-> | Hx]; [| eauto].
        inversion Lx; subst. now right.
      * intros x pn y Lx Hy. rewrite lookup_assign in Lx.
        destruct (Nat.eqb_spec x nbr) as [-> | Hx]; [| eauto].
        inversion Lx; subst. destruct Hy as [<- | []]. exact He.
      * rewrite lookup_assign. destruct (Nat.eqb root nbr);
          [discriminate | exact HK].
      * intros [<- | F]; [congruence | contradiction].
      * intros Zr x a Lx. rewrite lookup_assign in Lx.
        destruct (Nat.eqb_spec x nbr) as [-> | Hx].
        -- right. apply in_or_app. right. now left.
        -- destruct (HR Zr x a Lx) as [Hx' | Hx'];
             [now left | right; apply in_or_app; now left].
      * exact HC.
Qed.

Lemma walk_loop_inv : forall fuel w w',
  walk_inv G root w ->
  walk_loop fuel G w = Returned w' ->
  Forall (closed_walk G) (w_cycles w').
Proof.
  induction fuel as [| f IH]; intros w w' J H; [discriminate |].
  cbn [walk_loop] in H.
  destruct (w_stack w) as [| z rest] eqn:E.
  - inversion H; subst. exact (wi_cycles J).
  - destruct (lookup z (w_used w)) as [zused |]; [| discriminate].
    destruct (has_node G z); [| discriminate].
    destruct (visit_nbrs _ z zused (nbrs G z) _) as [w1 | | |] eqn:V;
      try discriminate.
    apply IH in H; [exact H |].
    apply (@visit_nbrs_inv _ z zused (nbrs G z) []) in V; simpl; auto.
    + apply nbrs_NoDup.
    + apply incl_refl.
    + exact (wi_pred J).
    + exact (wi_used J).
    + exact (wi_root J).
    + intros F. destruct (wi_stack J) as [S _]; [rewrite E; now right |].
      rewrite E in S. inversion S; subst. contradiction.
    + intros -> x a Lx. left.
      destruct (wi_stack J) as [_ S]; [rewrite E; now left |]. eauto.
    + exact (wi_cycles J).
Qed.

End Walk.

Lemma components_loop_walks pick G :
  is_directed G = false ->
  forall fuel gnodes root cycles roots c r,
    Forall (closed_walk G) cycles ->
    components_loop fuel pick G gnodes root cycles roots = Returned (c, r) ->
    Forall (closed_walk G) c.
Proof.
  intros Hd.
  induction fuel as [| f IH]; intros gnodes root cycles roots c r HC H;
    [discriminate |].
  rewrite components_loop_S in H. destruct gnodes as [| d s].
  - inversion H; subst. exact HC.
  - destruct (match root with
              | Some r0 => (r0, d :: s)
              | None => match set_pop pick (d :: s) with
                        | Some (r0, g') => (r0, g')
                        | None => (0, d :: s)
                        end
              end) as [r0 gnodes1].
    destruct (walk_loop _ G _) as [w | | |] eqn:W; try discriminate.
    apply IH in H; [exact H |].
    apply walk_loop_inv with (root := r0) in W; [exact W | exact Hd |].
    constructor; simpl.
    + intros x q L. destruct (Nat.eqb_spec x r0); [| discriminate].
      inversion L; subst. now left.
    + intros x pn y L Hy. destruct (Nat.eqb x r0); [| discriminate].
      inversion L; subst. contradiction.
    + rewrite Nat.eqb_refl. discriminate.
    + intros _. split; [reflexivity |].
      intros x a L. destruct (Nat.eqb_spec x r0); [assumption | discriminate].
    + exact HC.
Qed.

(** X6: Every list [cycle_basis] returns for a simple undirected graph is a
    closed walk of the graph, whatever the root. *)
Theorem cycle_basis_closed_walks pick root G l :
  is_multigraph G = false ->
  cycle_basis pick root G = Returned l -> Forall (closed_walk G) l.
Proof.
  intros Mu. unfold cycle_basis, cycle_basis_trace, not_implemented_for.
  unfold directed_kind. destruct (is_directed G) eqn:D; [discriminate |].
  rewrite Mu.
  destruct (components_loop _ pick G _ root [] []) as [[c r] | | |] eqn:C;
    try discriminate.
  intros H. inversion H; subst.
  eapply components_loop_walks; [exact D | | exact C]. constructor.
Qed.

Lemma cycle_basis_closed_walks_witness :
  Forall (closed_walk
            (of_pairs false false
               [(0, 1); (1, 2); (2, 3); (3, 0); (0, 3); (3, 4); (4, 5);
                (5, 0)]))
         [[3; 4; 5; 0]; [1; 2; 3; 0]].
Proof.
  apply (@cycle_basis_closed_walks pick_first (Some 0)
           (of_pairs false false
              [(0, 1); (1, 2); (2, 3); (3, 0); (0, 3); (3, 4); (4, 5);
               (5, 0)]));
    reflexivity.
Defined.

(** * The shape of the matrix of [cycle_basis_matrix] *)

Lemma set_nth_length (A : Type) (a : A) : forall l i,
  length (set_nth i a l) = length l.
Proof.
  induction l as [| x r IH]; intros i; [reflexivity |].
  destruct i; simpl; [reflexivity | now rewrite IH].
Qed.

Lemma set_nth_Forall (A : Type) (P : A -> Prop) (a : A) : forall l i,
  P a -> Forall P l -> Forall P (set_nth i a l).
Proof.
  induction l as [| x r IH]; intros i Ha H; [constructor |].
  inversion H; subst. destruct i; simpl; constructor; auto.
Qed.

Lemma zeros_shaped nrow ncol : shaped nrow ncol (zeros nrow ncol).
Proof.
  unfold shaped, zeros. split; [apply repeat_length |].
  apply Forall_forall. intros r Hr. apply repeat_spec in Hr. subst r.
  split; [apply repeat_length |].
  apply Forall_forall. intros v Hv. apply repeat_spec in Hv. subst v.
  right. now left.
Qed.

Lemma set_entry_shaped nrow ncol M row col v M' :
  shaped nrow ncol M -> sign v ->
  set_entry M row col v = inl M' -> shaped nrow ncol M'.
Proof.
  intros [L F] Hv H. unfold set_entry in H.
  destruct (nth_error M row) as [r |] eqn:E; [| discriminate].
  destruct (Nat.ltb col (length r)); [| discriminate].
  inversion H; subst. split; [now rewrite set_nth_length |].
  apply set_nth_Forall; [| exact F].
  apply nth_error_In in E. rewrite Forall_forall in F.
  destruct (F r E) as [Lr Fr]. split; [now rewrite set_nth_length |].
  now apply set_nth_Forall.
Qed.

Lemma sign_one : sign 1%Z.
Proof. right. now right. Qed.

Lemma sign_minus_one : sign (-1)%Z.
Proof. now left. Qed.

Lemma fill_cycle_shaped nrow ncol T Gedges Tedges col : forall l M M',
  shaped nrow ncol M ->
  fill_cycle T Gedges Tedges col l M = inl M' -> shaped nrow ncol M'.
Proof.
  induction l as [| ce r IH]; intros M M' S H; simpl in H.
  - inversion H; subst. exact S.
  - destruct (tree_row T Gedges Tedges ce) as [row2 | x].
    + destruct (set_entry M row2 col 1) as [M1 | x] eqn:E; [| discriminate].
      apply IH in H; [exact H |].
      exact (@set_entry_shaped _ _ _ _ _ _ _ S sign_one E).
    + destruct x; try discriminate.
      destruct (tree_row T Gedges Tedges (snd ce, fst ce)) as [row2 | x];
        [| discriminate].
      destruct (set_entry M row2 col (-1)) as [M1 | x] eqn:E;
        [| discriminate].
      apply IH in H; [exact H |].
      exact (@set_entry_shaped _ _ _ _ _ _ _ S sign_minus_one E).
Qed.

Lemma fill_column_shaped nrow ncol pick T Gedges Tedges col e M M' :
  shaped nrow ncol M ->
  fill_column pick T Gedges Tedges col e M = inl M' -> shaped nrow ncol M'.
Proof.
  intros S H. unfold fill_column in H.
  destruct (index id_eqb e Gedges) as [row |]; [| discriminate].
  destruct (set_entry M row col 1) as [M1 | x] eqn:E; [| discriminate].
  pose proof (@set_entry_shaped _ _ _ _ _ _ _ S sign_one E) as S1. cbv zeta in H.
  destruct (tree_row T Gedges Tedges (fst e)) as [row2 | x].
  { exact (@set_entry_shaped _ _ _ _ _ _ _ S1 sign_minus_one H). }
  destruct x; try discriminate.
  destruct (tree_row T Gedges Tedges (snd (fst e), fst (fst e)))
    as [row2 | x].
  { exact (@set_entry_shaped _ _ _ _ _ _ _ S1 sign_one H). }
  destruct x; try discriminate.
  destruct (cycle_basis pick None _) as [[| cyc rest] | | |];
    try discriminate.
  destruct (pair_mem _ _).
  - now apply fill_cycle_shaped with (nrow := nrow) (ncol := ncol) in H.
  - destruct (negb _); [discriminate |].
    now apply fill_cycle_shaped with (nrow := nrow) (ncol := ncol) in H.
Qed.

Lemma fill_columns_shaped nrow ncol pick T Gedges Tedges :
  forall Cedges col M M',
  shaped nrow ncol M ->
  fill_columns pick T Gedges Tedges col Cedges M = inl M' ->
  shaped nrow ncol M'.
Proof.
  induction Cedges as [| e r IH]; intros col M M' S H; simpl in H.
  - inversion H; subst. exact S.
  - destruct (fill_column pick T Gedges Tedges col e M) as [M1 | x] eqn:E;
      [| discriminate].
    apply IH in H; [exact H |].
    now apply fill_column_shaped with (nrow := nrow) (ncol := ncol) in E.
Qed.

(** X13: [cycle_basis_matrix] raises [NetworkXNotImplemented] for a directed
    graph and for [sparse=True]; when it returns a matrix, the graph is
    undirected, the matrix has one row for every edge of [G] and one
    column for every chord, and every entry is -1, 0 or 1. *)
Theorem cycle_basis_matrix_shape pick G sparse :
  (is_directed G = true \/ sparse = true ->
   cycle_basis_matrix pick G sparse = inr NotImplementedExn) /\
  (forall M, cycle_basis_matrix pick G sparse = inl M ->
     is_directed G = false /\ sparse = false /\
     shaped (length (edges_iter G))
            (length (edges_iter (fst (chords G)))) M).
Proof.
  unfold cycle_basis_matrix. destruct (chords G) as [C T]. cbn [fst].
  split.
  - intros [D | Sp]; [now rewrite D |].
    rewrite Sp. now destruct (is_directed G).
  - intros M H. destruct (is_directed G); [discriminate |].
    destruct sparse; [discriminate |].
    split; [reflexivity |]. split; [reflexivity |].
    eapply fill_columns_shaped; [apply zeros_shaped | exact H].
Qed.
